(** * Slack exporter: a shallow embedding of [export.py]

    The exporter pages through four Slack Web API listings, resolves
    mention tokens to display names and writes one transcript per
    conversation.  The Slack client is the only source of effects: a call
    either answers with a page or raises [SlackApiError].  A run of the
    program is modelled against a _script_, the list of replies the API
    gives to the successive calls, and every function returns, next to its
    result, the log of requests, sleeps and console lines it produced and
    the part of the script it left unread.

    What lies outside the program is taken as follows.  Responses are
    well formed: the keys the program reads with [r[...]] and [m[...]] are
    there.  A [Retry-After] header holds an integer.  [float] is any
    function from timestamp text to rationals (every finite float is one),
    and the local wall-clock second that [datetime.fromtimestamp] assigns
    to a float is a parameter as well; the calendar arithmetic and
    [strftime] are written out, with [%Y] padded to four digits. *)

From Stdlib Require Import ZArith QArith Qround String Ascii List Lia.
From Stdlib Require Import DecimalString.
From Stdlib Require DecimalZ.
From Stdlib Require Import Sorted Permutation.
From stdpp Require Import base strings gmap list.

(** ** Python values used by the program *)

(** [str(n)] for an integer. *)
Definition str_of_Z (z : Z) : string := NilZero.string_of_int (Z.to_int z).

(** Truth value of [x] where [x] is [None] or a string: [if not cursor]. *)
Definition truthy (x : option string) : bool :=
  match x with
  | Some s => negb (String.eqb s "")
  | None => false
  end.

(** [x or y] where [x] is [None] or a string. *)
Definition or_else (x : option string) (y : string) : string :=
  match x with
  | Some s => if String.eqb s "" then y else s
  | None => y
  end.

(** A [dict] with string keys.  Python dictionaries iterate in insertion
    order, and [fetch_channel_structured] issues its thread requests in
    that order, so the order is kept here. *)
Definition dict (V : Type) : Type := list (string * V).

Fixpoint dict_get {V} (d : dict V) (k : string) : option V :=
  match d with
  | [] => None
  | (k', v) :: d' => if String.eqb k' k then Some v else dict_get d' k
  end.

(** [d[k] = v]: an existing key keeps its place, a new one goes last. *)
Fixpoint dict_set {V} (k : string) (v : V) (d : dict V) : dict V :=
  match d with
  | [] => [(k, v)]
  | (k', v') :: d' =>
      if String.eqb k' k then (k, v) :: d' else (k', v') :: dict_set k v d'
  end.

Definition dict_keys {V} (d : dict V) : list string := map fst d.

(** ** Slack objects, with the keys the program reads *)

Module Member.
Record t : Type := Make {
  id : string;
  real_name : option string;
  name : option string
}.
End Member.

Module Channel.
Record t : Type := Make {
  id : string;
  name : option string;
  is_im : bool;
  user : option string
}.
End Channel.

Module Message.
Record t : Type := Make {
  ts : string;
  thread_ts : option string;
  subtype : option string;
  user : option string;
  text : option string
}.
End Message.

(** ** The API as seen by the program *)

(** A successful response: the listed objects ([r["members"]],
    [r["channels"]], [r["messages"]]) and
    [r.get("response_metadata", {}).get("next_cursor")]. *)
Record page (A : Type) : Type := Page {
  items : list A;
  next_cursor : option string
}.
Arguments Page {A} _ _.
Arguments items {A} _.
Arguments next_cursor {A} _.

(** A raised [SlackApiError]: [e.response["error"]], the [Retry-After]
    header as [int] reads it when the header is there, and [str(e)]. *)
Record SlackApiError : Type := ApiError {
  error : string;
  retry_after : option Z;
  err_str : string
}.

Definition ratelimited (e : SlackApiError) : bool :=
  String.eqb (error e) "ratelimited".

Inductive reply (A : Type) : Type :=
| Answer (r : page A)
| Failure (e : SlackApiError).
Arguments Answer {A} r.
Arguments Failure {A} e.

Inductive request : Type :=
| users_list (cursor : option string)
| conversations_list (types : string) (limit : Z) (cursor : option string)
| conversations_history (channel : string) (cursor : option string)
    (limit : Z) (oldest latest : Z)
| conversations_replies (channel ts : string) (cursor : option string)
    (limit : Z).

Inductive event : Type :=
| Call (q : request)
| Sleep (seconds : Q)
| Print (line : string).

(** How a function leaves: it returns, an uncaught [SlackApiError] leaves
    it, or the script is exhausted and the pending call is never
    answered. *)
Inductive outcome (R : Type) : Type :=
| Returned (r : R)
| Raised (e : SlackApiError)
| Pending.
Arguments Returned {R} r.
Arguments Raised {R} e.
Arguments Pending {R}.

Record run (A R : Type) : Type := Run {
  result : outcome R;
  events : list event;
  unread : list (reply A)
}.
Arguments Run {A R} _ _ _.
Arguments result {A R} _.
Arguments events {A R} _.
Arguments unread {A R} _.

(** The events [evs] happen, then the run [r]. *)
Definition after {A R} (evs : list event) (r : run A R) : run A R :=
  Run (result r) (evs ++ events r) (unread r).

(** ** [fetch_user_map] *)

Definition display_name (u : Member.t) : string :=
  or_else (Member.real_name u) (or_else (Member.name u) (Member.id u)).

Definition add_members (m : gmap string string) (us : list Member.t)
  : gmap string string :=
  fold_left (fun m u => <[Member.id u := display_name u]> m) us m.

Definition users_wait_line (wait : Z) : string :=
  "⏳ users.list rate-limited, sleeping " +:+ str_of_Z wait +:+ "s …".

Definition users_failed_line (e : SlackApiError) : string :=
  "⚠️ users.list failed: " +:+ err_str e.

Fixpoint fetch_user_map_loop (script : list (reply Member.t))
    (m : gmap string string) (cursor : option string) (backoff : Z)
  : run Member.t (gmap string string) :=
  match script with
  | [] => Run Pending [Call (users_list cursor)] []
  | Answer r :: script' =>
      let m' := add_members m (items r) in
      let cursor' := next_cursor r in
      if truthy cursor'
      then after [Call (users_list cursor)]
             (fetch_user_map_loop script' m' cursor' 10)
      else Run (Returned m') [Call (users_list cursor)] script'
  | Failure e :: script' =>
      if ratelimited e
      then
        let wait := default backoff (retry_after e) in
        after [Call (users_list cursor); Print (users_wait_line wait);
               Sleep (inject_Z wait)]
          (fetch_user_map_loop script' m cursor (Z.min (backoff * 2) 120))
      else Run (Returned m)
             [Call (users_list cursor); Print (users_failed_line e)] script'
  end.

Definition fetch_user_map (script : list (reply Member.t))
  : run Member.t (gmap string string) :=
  fetch_user_map_loop script ∅ None 10.

(** ** [fetch_all_channels] *)

Fixpoint fetch_all_channels_loop (types : string)
    (script : list (reply Channel.t)) (channels : list Channel.t)
    (cursor : option string) : run Channel.t (list Channel.t) :=
  match script with
  | [] => Run Pending [Call (conversations_list types 200 cursor)] []
  | Answer r :: script' =>
      let channels' := channels ++ items r in
      let cursor' := next_cursor r in
      if truthy cursor'
      then after [Call (conversations_list types 200 cursor)]
             (fetch_all_channels_loop types script' channels' cursor')
      else Run (Returned channels')
             [Call (conversations_list types 200 cursor)] script'
  | Failure e :: script' =>
      Run (Raised e) [Call (conversations_list types 200 cursor)] script'
  end.

Definition default_types : string :=
  "public_channel,private_channel,im,mpim".

Definition fetch_all_channels (types : string)
    (script : list (reply Channel.t)) : run Channel.t (list Channel.t) :=
  fetch_all_channels_loop types script [] None.

(** ** [fetch_thread] *)

Definition str_of_nat (n : nat) : string := str_of_Z (Z.of_nat n).

Definition thread_fetch_line (parent_ts : string) : string :=
  "🔄 Fetching thread replies for parent_ts=" +:+ parent_ts.

Definition thread_wait_line (index total : nat) (wait : Z) : string :=
  "⏳ Rate-limited on thread " +:+ str_of_nat index +:+ "/"
    +:+ str_of_nat total +:+ ", sleeping " +:+ str_of_Z wait +:+ "s …".

Definition thread_failed_line (e : SlackApiError) : string :=
  "⚠️ conversations.replies failed: " +:+ err_str e.

Section FetchThread.
Variables (channel_id parent_ts : string) (index total : nat)
          (thread_sleep : Q) (verbose : bool).

(** What every round of the loop does before the answer is known. *)
Definition thread_call (cursor : option string) : list event :=
  (if verbose then [Print (thread_fetch_line parent_ts)] else [])
    ++ [Call (conversations_replies channel_id parent_ts cursor 100)].

Fixpoint fetch_thread_loop (script : list (reply Message.t))
    (replies : list Message.t) (cursor : option string)
  : run Message.t (list Message.t) :=
  match script with
  | [] => Run Pending (thread_call cursor) []
  | Answer r :: script' =>
      let replies' := replies ++ tail (items r) in
      let cursor' := next_cursor r in
      if truthy cursor'
      then after (thread_call cursor ++ [Sleep thread_sleep])
             (fetch_thread_loop script' replies' cursor')
      else Run (Returned replies') (thread_call cursor) script'
  | Failure e :: script' =>
      if ratelimited e
      then
        let wait := default 30%Z (retry_after e) in
        after (thread_call cursor
                 ++ [Print (thread_wait_line index total wait);
                     Sleep (inject_Z wait)])
          (fetch_thread_loop script' replies cursor)
      else Run (Returned replies)
             (thread_call cursor ++ [Print (thread_failed_line e)]) script'
  end.

Definition fetch_thread (script : list (reply Message.t))
  : run Message.t (list Message.t) :=
  fetch_thread_loop script [] None.
End FetchThread.

(** ** [fetch_channel_structured] *)

(** ["thread_ts" in m and m["ts"] == m["thread_ts"]]. *)
Definition is_thread_parent (m : Message.t) : bool :=
  match Message.thread_ts m with
  | Some t => String.eqb (Message.ts m) t
  | None => false
  end.

(** ["subtype" in m and m["subtype"] != "thread_broadcast"]. *)
Definition skipped_subtype (m : Message.t) : bool :=
  match Message.subtype m with
  | Some s => negb (String.eqb s "thread_broadcast")
  | None => false
  end.

Definition history_wait_line (wait : Z) : string :=
  "⏳ Rate-limited on history, sleeping " +:+ str_of_Z wait +:+ "s …".

Definition history_failed_line (e : SlackApiError) : string :=
  "⚠️ conversations.history failed: " +:+ err_str e.

Section FetchChannel.
(** [float] of a timestamp string.  Finite floating-point values are
    rationals; what [float] does to a given text is left open. *)
Variable float : string -> Q.
Variables (ch_id : string) (start_ts end_ts : Z)
          (thread_sleep : Q) (verbose : bool).

(** [start_ts <= tsf <= end_ts]. *)
Definition in_range (m : Message.t) : bool :=
  let tsf := float (Message.ts m) in
  Qle_bool (inject_Z start_ts) tsf && Qle_bool tsf (inject_Z end_ts).

(** One round of [for m in r["messages"]]. *)
Definition keep_message (acc : list Message.t * dict (list Message.t))
    (m : Message.t) : list Message.t * dict (list Message.t) :=
  let '(tops, threads) := acc in
  if skipped_subtype m then acc
  else if in_range m
  then (tops ++ [m],
        if is_thread_parent m then dict_set (Message.ts m) [] threads
        else threads)
  else acc.

Definition history_call (cursor : option string) : event :=
  Call (conversations_history ch_id cursor 200 start_ts end_ts).

Fixpoint history_loop (script : list (reply Message.t))
    (tops : list Message.t) (threads : dict (list Message.t))
    (cursor : option string)
  : run Message.t (list Message.t * dict (list Message.t)) :=
  match script with
  | [] => Run Pending [history_call cursor] []
  | Answer r :: script' =>
      let acc := fold_left keep_message (items r) (tops, threads) in
      let cursor' := next_cursor r in
      if truthy cursor'
      then after [history_call cursor; Sleep 1]
             (history_loop script' (fst acc) (snd acc) cursor')
      else Run (Returned acc) [history_call cursor] script'
  | Failure e :: script' =>
      if ratelimited e
      then
        let wait := default 30%Z (retry_after e) in
        after [history_call cursor; Print (history_wait_line wait);
               Sleep (inject_Z wait); Sleep 1]
          (history_loop script' tops threads cursor)
      else Run (Returned (tops, threads))
             [history_call cursor; Print (history_failed_line e)] script'
  end.

(** [for idx, ts in enumerate(threads, 1): threads[ts] = fetch_thread(...)],
    over the keys still to visit. *)
Fixpoint threads_loop (keys : list string) (idx total : nat)
    (script : list (reply Message.t)) (threads : dict (list Message.t))
  : run Message.t (dict (list Message.t)) :=
  match keys with
  | [] => Run (Returned threads) [] script
  | ts :: keys' =>
      let r := fetch_thread ch_id ts idx total thread_sleep verbose script in
      match result r with
      | Returned replies =>
          after (events r)
            (threads_loop keys' (S idx) total (unread r)
               (dict_set ts replies threads))
      | Raised e => Run (Raised e) (events r) (unread r)
      | Pending => Run Pending (events r) (unread r)
      end
  end.

Definition fetch_channel_structured (script : list (reply Message.t))
  : run Message.t (list Message.t * dict (list Message.t)) :=
  let h := history_loop script [] [] None in
  match result h with
  | Returned (tops, threads) =>
      let t := threads_loop (dict_keys threads) 1 (length threads)
                 (unread h) threads in
      match result t with
      | Returned threads' =>
          Run (Returned (tops, threads')) (events h ++ events t) (unread t)
      | Raised e => Run (Raised e) (events h ++ events t) (unread t)
      | Pending => Run Pending (events h ++ events t) (unread t)
      end
  | Raised e => Run (Raised e) (events h) (unread h)
  | Pending => Run Pending (events h) (unread h)
  end.
End FetchChannel.

(** ** [resolve_text] *)

(** The class [[A-Z0-9]]. *)
Definition is_id_char (c : ascii) : bool :=
  let n := nat_of_ascii c in
  (Nat.leb 65 n && Nat.leb n 90) || (Nat.leb 48 n && Nat.leb n 57).

(** The longest prefix of [s] whose characters satisfy [p], and what
    follows it. *)
Fixpoint span (p : ascii -> bool) (s : string) : string * string :=
  match s with
  | String c s' =>
      if p c then let '(a, b) := span p s' in (String c a, b)
      else (EmptyString, s)
  | EmptyString => (EmptyString, EmptyString)
  end.

Fixpoint strip_prefix (lit s : string) : option string :=
  match lit, s with
  | EmptyString, _ => Some s
  | String a lit', String b s' =>
      if Ascii.eqb a b then strip_prefix lit' s' else None
  | String _ _, EmptyString => None
  end.

(** The three patterns have one shape: a literal opening, a group drawn
    from [[A-Z0-9]] and a closing [>].  The group is matched greedily and
    nothing of it can be given back (the character after a shorter group
    would be of the class, not [>]), so a match at the head of [s] exists
    exactly when the longest run of the class after the opening is
    followed by [>] and is a group the pattern admits. *)
Record pattern : Type := Pattern {
  opening : string;
  admits : string -> bool
}.

(** [re.match]: the group and the text after the match. *)
Definition match_at (p : pattern) (s : string) : option (string * string) :=
  match strip_prefix (opening p) s with
  | Some s1 =>
      let '(g, s2) := span is_id_char s1 in
      match s2 with
      | String c s3 =>
          if Ascii.eqb c ">" && admits p g then Some (g, s3) else None
      | EmptyString => None
      end
  | None => None
  end.

(** [<@([UW][A-Z0-9]+)>]: the group starts with U or W and has a second
    character. *)
Definition user_ref : pattern :=
  Pattern "<@" (fun g =>
    match g with
    | String c (String _ _) => Ascii.eqb c "U" || Ascii.eqb c "W"
    | _ => false
    end).

(** [<(U[A-Z0-9]+)>]. *)
Definition plain_ref : pattern :=
  Pattern "<" (fun g =>
    match g with
    | String c (String _ _) => Ascii.eqb c "U"
    | _ => false
    end).

(** [<!subteam\^([A-Z0-9]+)>]. *)
Definition group_ref : pattern :=
  Pattern "<!subteam^" (fun g =>
    match g with
    | String _ _ => true
    | EmptyString => false
    end).

(** [re.sub(p, repl, s)]: leftmost matches, none overlapping, the rest
    copied.  No pattern here matches the empty string, so every round
    consumes a character and [fuel] bounds the rounds. *)
Fixpoint re_sub_fuel (fuel : nat) (p : pattern) (repl : string -> string)
    (s : string) : string :=
  match fuel with
  | O => s
  | S fuel' =>
      match match_at p s with
      | Some (g, rest) => repl g +:+ re_sub_fuel fuel' p repl rest
      | None =>
          match s with
          | String c s' => String c (re_sub_fuel fuel' p repl s')
          | EmptyString => EmptyString
          end
      end
  end.

Definition re_sub (p : pattern) (repl : string -> string) (s : string)
  : string :=
  re_sub_fuel (String.length s) p repl s.

(** [m.get(k, k)]. *)
Definition get_or_key (m : gmap string string) (k : string) : string :=
  default k (m !! k).

Definition resolve_text (txt : string) (user_map group_map : gmap string string)
  : string :=
  let txt := re_sub user_ref (fun g => "@" +:+ get_or_key user_map g) txt in
  let txt :=
    re_sub plain_ref (fun g => "<" +:+ get_or_key user_map g +:+ ">") txt in
  let txt := re_sub group_ref (fun g => "@" +:+ get_or_key group_map g) txt in
  txt.

(** ** [sorted] *)

(** [sorted(l, key=k)] is stable; a stable sort has one result, computed
    here by insertion. *)
Section Sorted.
Context {A : Type} (key : A -> Q).

Fixpoint insert_sorted (x : A) (l : list A) : list A :=
  match l with
  | [] => [x]
  | y :: l' =>
      if Qle_bool (key x) (key y) then x :: y :: l'
      else y :: insert_sorted x l'
  end.

Fixpoint sorted (l : list A) : list A :=
  match l with
  | [] => []
  | x :: l' => insert_sorted x (sorted l')
  end.
End Sorted.

(** ** [fmt_ts] *)

Module Datetime.
Record t : Type := Make {
  year : Z; month : Z; day : Z;
  hour : Z; minute : Z; second : Z
}.

(** The proleptic Gregorian date of day [z], counted from 1970-01-01,
    by eras of 400 years starting on the first of March. *)
Definition civil_from_days (z : Z) : Z * Z * Z :=
  let z := (z + 719468)%Z in
  let era := (z / 146097)%Z in
  let doe := (z - era * 146097)%Z in
  let yoe := ((doe - doe / 1460 + doe / 36524 - doe / 146096) / 365)%Z in
  let doy := (doe - (365 * yoe + yoe / 4 - yoe / 100))%Z in
  let mp := ((5 * doy + 2) / 153)%Z in
  let d := (doy - (153 * mp + 2) / 5 + 1)%Z in
  let m := (if mp <? 10 then mp + 3 else mp - 9)%Z in
  let y := (yoe + era * 400 + (if m <=? 2 then 1 else 0))%Z in
  (y, m, d).

(** The date and time of day at [s] seconds of local wall-clock time
    after 1970-01-01 00:00:00; years outside 1..9999 raise. *)
Definition of_seconds (s : Z) : option t :=
  let '(y, m, d) := civil_from_days (s / 86400) in
  let sod := (s mod 86400)%Z in
  if ((1 <=? y) && (y <=? 9999))%Z
  then Some (Make y m d (sod / 3600) (sod mod 3600 / 60) (sod mod 60))%Z
  else None.

Definition digit (d : Z) : ascii := ascii_of_nat (48 + Z.to_nat d).

Definition pad2 (n : Z) : string :=
  String (digit (n / 10)) (String (digit (n mod 10)) EmptyString).

Definition pad4 (n : Z) : string :=
  String (digit (n / 1000)) (String (digit (n / 100 mod 10))
    (String (digit (n / 10 mod 10)) (String (digit (n mod 10)) EmptyString))).

(** [strftime("%Y-%m-%d %H:%M:%S")]. *)
Definition strftime (dt : t) : string :=
  pad4 (year dt) +:+ "-" +:+ pad2 (month dt) +:+ "-" +:+ pad2 (day dt)
    +:+ " " +:+ pad2 (hour dt) +:+ ":" +:+ pad2 (minute dt)
    +:+ ":" +:+ pad2 (second dt).
End Datetime.

(** ** [write_channel] *)

Definition nl : string := String (ascii_of_nat 10) EmptyString.

(** One [f.write]: the message it renders, whether it is a reply line, and
    the text written. *)
Record written : Type := Written {
  is_reply : bool;
  source : Message.t;
  chunk : string
}.

(** What reaches the file: the writes up to the first that raises. *)
Fixpoint commit (attempts : list (option written)) : list written :=
  match attempts with
  | Some w :: attempts' => w :: commit attempts'
  | _ => []
  end.

Section WriteChannel.
Variable float : string -> Q.
(** Local wall-clock seconds since 1970-01-01 00:00:00 that
    [datetime.fromtimestamp] takes a float to; rounding and time zone are
    the platform's. *)
Variable local_seconds : Q -> Z.

Definition fmt_ts (ts : string) : option string :=
  option_map Datetime.strftime
    (Datetime.of_seconds (local_seconds (float ts))).

Variables (threads : dict (list Message.t)) (resolve : bool)
          (user_map group_map : gmap string string).

(** [user_map.get(m.get('user'), 'unknown')]. *)
Definition author (m : Message.t) : string :=
  default "unknown" (Message.user m ≫= fun u => user_map !! u).

Definition body (m : Message.t) : string :=
  let text := default "" (Message.text m) in
  if resolve then resolve_text text user_map group_map else text.

Definition top_line (m : Message.t) : option written :=
  option_map
    (fun stamp =>
       Written false m
         ("[" +:+ stamp +:+ "] <" +:+ author m +:+ "> " +:+ body m
            +:+ nl +:+ nl))
    (fmt_ts (Message.ts m)).

Definition reply_line (r : Message.t) : option written :=
  option_map
    (fun stamp =>
       Written true r
         ("    ↳ [" +:+ stamp +:+ "] <" +:+ author r +:+ "> " +:+ body r
            +:+ nl +:+ nl))
    (fmt_ts (Message.ts r)).

Definition by_ts (x : Message.t) : Q := float (Message.ts x).

(** The body of [for m in sorted(messages, ...)], over the messages still
    to write. *)
Fixpoint write_messages (ms : list Message.t) : list (option written) :=
  match ms with
  | [] => []
  | m :: ms' =>
      top_line m
        :: (if is_thread_parent m
            then map reply_line
                   (sorted by_ts (default [] (dict_get threads (Message.ts m))))
            else [])
        ++ write_messages ms'
  end.

Definition write_channel (messages : list Message.t) : list written :=
  commit (write_messages (sorted by_ts messages)).
End WriteChannel.

(** ** Vocabulary of the statements *)

(** *** Scripts *)

(** The successful responses of a script, in order. *)
Fixpoint pages {A} (script : list (reply A)) : list (page A) :=
  match script with
  | [] => []
  | Answer r :: script' => r :: pages script'
  | Failure _ :: script' => pages script'
  end.

(** All items the pages of a script carry, in order. *)
Definition fetched {A} (script : list (reply A)) : list A :=
  concat (map items (pages script)).

(** A page that announces another one. *)
Definition has_more {A} (a : reply A) : bool :=
  match a with
  | Answer r => truthy (next_cursor r)
  | Failure _ => false
  end.

(** A page that announces no other: the cursor is missing or empty. *)
Definition last_page {A} (a : reply A) : bool :=
  match a with
  | Answer r => negb (truthy (next_cursor r))
  | Failure _ => false
  end.

(** A reply after which a loop with a rate-limit handler goes round again:
    a page that announces another one, or a rate-limit error. *)
Definition goes_on {A} (a : reply A) : bool :=
  match a with
  | Answer r => truthy (next_cursor r)
  | Failure e => ratelimited e
  end.

Definition rate_limit {A} (a : reply A) : bool :=
  match a with
  | Answer _ => false
  | Failure e => ratelimited e
  end.

(** The script without its rate-limit errors. *)
Definition unthrottled {A} (script : list (reply A)) : list (reply A) :=
  List.filter (fun a => negb (rate_limit a)) script.

(** A script that a loop with a rate-limit handler reads to its end and no
    further: every reply but the last makes it go round again. *)
Definition complete {A} (script : list (reply A)) : bool :=
  match rev script with
  | [] => false
  | t :: pre => negb (goes_on t) && forallb goes_on pre
  end.

(** What [fetch_thread] makes of the pages of a script. *)
Definition thread_replies (script : list (reply Message.t)) : list Message.t :=
  concat (map (fun r => tail (items r)) (pages script)).

(** The requests in a log. *)
Fixpoint calls (evs : list event) : list request :=
  match evs with
  | [] => []
  | Call q :: evs' => q :: calls evs'
  | _ :: evs' => calls evs'
  end.

(** The cursor sent with each request of a loop that starts with cursor
    [c] and reads [script]: a page hands over its own, an error leaves the
    cursor as it is. *)
Fixpoint cursors {A} (c : option string) (script : list (reply A))
  : list (option string) :=
  match script with
  | [] => []
  | Answer r :: script' => c :: cursors (next_cursor r) script'
  | Failure _ :: script' => c :: cursors c script'
  end.

(** The name the members [us] give to the identifier [k]: that of the last
    of them who bears it. *)
Definition user_map_of (us : list Member.t) (k : string) : option string :=
  option_map display_name
    (find (fun u => String.eqb (Member.id u) k) (rev us)).

(** *** History *)

(** The messages of a page that [fetch_channel_structured] keeps. *)
Definition kept (float : string -> Q) (start_ts end_ts : Z) (m : Message.t)
  : bool :=
  negb (skipped_subtype m) && in_range float start_ts end_ts m.

(** The distinct elements of [l] in the order of their first occurrence,
    given those seen before. *)
Fixpoint first_seen_from (seen l : list string) : list string :=
  match l with
  | [] => []
  | k :: l' =>
      if existsb (String.eqb k) seen then first_seen_from seen l'
      else k :: first_seen_from (seen ++ [k]) l'
  end.

Definition first_seen (l : list string) : list string := first_seen_from [] l.

(** The entries the kept thread parents among [ms] add to [threads]. *)
Definition open_threads (float : string -> Q) (start_ts end_ts : Z)
    (threads : dict (list Message.t)) (ms : list Message.t)
  : dict (list Message.t) :=
  fold_left (fun d k => dict_set k [] d)
    (map Message.ts
       (List.filter is_thread_parent
          (List.filter (kept float start_ts end_ts) ms)))
    threads.

(** The dictionary with the keys [ks], in this order, and every value the
    empty list. *)
Definition blank {V} (ks : list string) : dict (list V) :=
  map (fun k => (k, [])) ks.

(** *** Mention tokens *)

Fixpoint string_forallb (p : ascii -> bool) (s : string) : bool :=
  match s with
  | EmptyString => true
  | String c s' => p c && string_forallb p s'
  end.

(** The text a pattern matches with group [g]. *)
Definition token (p : pattern) (g : string) : string :=
  opening p +:+ g +:+ ">".

(** A group the pattern can capture. *)
Definition group_of (p : pattern) (g : string) : Prop :=
  string_forallb is_id_char g = true ∧ admits p g = true.

(** Some substring of [txt] matches the pattern. *)
Definition has_match (p : pattern) (txt : string) : Prop :=
  ∃ pre g post, txt = pre +:+ token p g +:+ post ∧ group_of p g.

Definition mention_free (txt : string) : Prop :=
  ¬ has_match user_ref txt ∧ ¬ has_match plain_ref txt
  ∧ ¬ has_match group_ref txt.

(** The same, by search. *)
Fixpoint finds (p : pattern) (txt : string) : bool :=
  match match_at p txt with
  | Some _ => true
  | None =>
      match txt with
      | String _ txt' => finds p txt'
      | EmptyString => false
      end
  end.

Definition has_mention (txt : string) : bool :=
  finds user_ref txt || finds plain_ref txt || finds group_ref txt.

Definition lacks (c : ascii) (s : string) : bool :=
  string_forallb (fun x => negb (Ascii.eqb x c)) s.

Definition begins_with (lit s : string) : bool :=
  match strip_prefix lit s with
  | Some _ => true
  | None => false
  end.

(** A character that cannot stand inside a match of [p] after its first
    character. *)
Definition breaks (p : pattern) (b : ascii) : bool :=
  negb (is_id_char b) && negb (Ascii.eqb b ">")
  && match opening p with
     | String _ o => lacks b o
     | EmptyString => false
     end.

(** *** Transcript lines *)

Definition is_digit (c : ascii) : bool :=
  let n := nat_of_ascii c in Nat.leb 48 n && Nat.leb n 57.

Definition is_letter (c : ascii) : bool :=
  let n := nat_of_ascii c in Nat.leb 65 n && Nat.leb n 90.

(** [s] has the given shape: a digit where the shape has a capital letter,
    the same character elsewhere. *)
Fixpoint has_shape (shape s : string) : bool :=
  match shape, s with
  | EmptyString, EmptyString => true
  | String p shape', String c s' =>
      (if is_letter p then is_digit c else Ascii.eqb p c)
      && has_shape shape' s'
  | _, _ => false
  end.

Definition stamp_shape : string := "YYYY-MM-DD HH:MM:SS".

(** [x] comes no later than [y] under [key]. *)
Definition key_le {A} (key : A -> Q) (x y : A) : Prop := (key x <= key y)%Q.

Definition top_level (ws : list written) : list Message.t :=
  map source (List.filter (fun w => negb (is_reply w)) ws).

(** Two lines one after the other, both reply lines, keep the order of
    their timestamps. *)
Definition replies_in_order (float : string -> Q) (w1 w2 : written) : Prop :=
  is_reply w1 = true → is_reply w2 = true →
  (float (Message.ts (source w1)) <= float (Message.ts (source w2)))%Q.

(** The write did not raise. *)
Definition written_ok (x : option written) : bool :=
  match x with
  | Some _ => true
  | None => false
  end.

(** The line [w] is the rendering of its message: the bracketed stamp of
    its timestamp, the author in angle brackets, the text and an empty
    line, after four spaces and an arrow when it is a reply line. *)
Definition rendered (float : string -> Q) (local_seconds : Q -> Z)
    (resolve : bool) (user_map group_map : gmap string string) (w : written)
  : Prop :=
  ∃ stamp,
    fmt_ts float local_seconds (Message.ts (source w)) = Some stamp
    ∧ has_shape stamp_shape stamp = true
    ∧ chunk w
      = (if is_reply w then "    ↳ " else "")
          +:+ "[" +:+ stamp +:+ "] <" +:+ author user_map (source w) +:+ "> "
          +:+ body resolve user_map group_map (source w) +:+ nl +:+ nl.

(** Where the message of the line [w] comes from: a top-level line renders
    one of [messages], a reply line one of the replies that [threads] holds
    for a thread parent among [messages]. *)
Definition placed (threads : dict (list Message.t))
    (messages : list Message.t) (w : written) : Prop :=
  if is_reply w
  then ∃ m rs, In m messages ∧ is_thread_parent m = true
               ∧ dict_get threads (Message.ts m) = Some rs
               ∧ In (source w) rs
  else In (source w) messages.

(** *** A platform for the examples *)

Module Example.
(** Decimal text without sign or exponent, read exactly. *)
Fixpoint digits (acc : N) (s : string) : N * string :=
  match s with
  | String c s' =>
      if is_digit c
      then digits (acc * 10 + (N_of_ascii c - 48))%N s'
      else (acc, s)
  | EmptyString => (acc, s)
  end.

Definition float (s : string) : Q :=
  let '(whole, s1) := digits 0 s in
  match s1 with
  | String "." s2 =>
      let '(frac, s3) := digits 0 s2 in
      let scale := (10 ^ N.of_nat (String.length s2 - String.length s3))%N in
      Qmake (Z.of_N (whole * scale + frac)) (Pos.of_nat (N.to_nat scale))
  | _ => inject_Z (Z.of_N whole)
  end.

(** UTC, whole seconds. *)
Definition local_seconds (x : Q) : Z := Qfloor x.

Definition message (ts : string) (thread_ts subtype : option string)
    (text : string) : Message.t :=
  Message.Make ts thread_ts subtype (Some "U1") (Some text).

Definition general : Channel.t :=
  Channel.Make "C1" (Some "general") false None.

Definition random : Channel.t :=
  Channel.Make "C2" (Some "random") false None.

Definition alice : Member.t := Member.Make "U1" (Some "Alice") (Some "al").

Definition bob : Member.t := Member.Make "U2" None (Some "bob").

Definition throttled (retry_after : option Z) : SlackApiError :=
  ApiError "ratelimited" retry_after "ratelimited".

Definition slow {A} : reply A := Failure (throttled (Some 3%Z)).

Definition broken : SlackApiError :=
  ApiError "internal_error" None "internal_error".
End Example.

(** The durations slept in a log. *)
Fixpoint sleeps (evs : list event) : list Q :=
  match evs with
  | [] => []
  | Sleep q :: evs' => q :: sleeps evs'
  | _ :: evs' => sleeps evs'
  end.

(** What tells two lines apart but for the text: reply line or not, and the
    message rendered. *)
Definition line_tag (w : written) : bool * Message.t :=
  (is_reply w, source w).

(** Every reply line of [ws] stands below the top-level line of a thread
    parent that holds its message among its replies, with nothing but reply
    lines in between; [cur] is the message of the last top-level line before
    [ws]. *)
Fixpoint nested (threads : dict (list Message.t)) (cur : option Message.t)
    (ws : list written) : Prop :=
  match ws with
  | [] => True
  | w :: ws' =>
      if is_reply w
      then match cur with
           | Some p =>
               is_thread_parent p = true
               ∧ In (source w)
                   (default [] (dict_get threads (Message.ts p)))
           | None => False
           end
           ∧ nested threads cur ws'
      else nested threads (Some (source w)) ws'
  end.

(** A character that ends every attempt at a match and starts none. *)
Definition separator (c : ascii) : bool :=
  breaks user_ref c && breaks plain_ref c && breaks group_ref c
  && negb (Ascii.eqb c "<").

(** Two attempted writes that succeed or raise together, with the same
    tag. *)
Definition alike (a b : option written) : Prop :=
  match a, b with
  | Some w1, Some w2 => line_tag w1 = line_tag w2
  | None, None => True
  | _, _ => False
  end.

(** ** [fetch_group_map] *)

Module Usergroup.
Record t : Type := Make {
  id : string;
  name : option string;
  handle : option string
}.
End Usergroup.

Definition group_name (g : Usergroup.t) : string :=
  or_else (Usergroup.name g) (or_else (Usergroup.handle g) (Usergroup.id g)).

(** [{g["id"]: ... for g in r["usergroups"]}]. *)
Definition group_dict (gs : list Usergroup.t) : gmap string string :=
  fold_left (fun m g => <[Usergroup.id g := group_name g]> m) gs ∅.

(** One call of [usergroups.list]; what the function returns and the
    replies it leaves unread. *)
Definition fetch_group_map (script : list (reply Usergroup.t))
  : outcome (gmap string string) * list (reply Usergroup.t) :=
  match script with
  | [] => (Pending, [])
  | Answer r :: script' => (Returned (group_dict (items r)), script')
  | Failure _ :: script' => (Returned ∅, script')
  end.

(** The name the groups [gs] give to the identifier [k]. *)
Definition group_map_of (gs : list Usergroup.t) (k : string) : option string :=
  option_map group_name
    (find (fun g => String.eqb (Usergroup.id g) k) (rev gs)).

(** ** [label_for_channel] *)

Definition label_for_channel (ch : Channel.t) (user_map : gmap string string)
  : string :=
  if Channel.is_im ch
  then "DM with "
         +:+ default (Channel.id ch)
               (Channel.user ch ≫= fun u => user_map !! u)
  else default ("channel_" +:+ Channel.id ch) (Channel.name ch).

(** ** [resolve_selection] *)

(** [s.split(sep)] for a separator of one character: one more part than
    there are separators, the empty text giving one empty part. *)
Fixpoint split_at (sep : ascii) (s : string) : list string :=
  match s with
  | EmptyString => [EmptyString]
  | String c s' =>
      if Ascii.eqb c sep then EmptyString :: split_at sep s'
      else match split_at sep s' with
           | h :: t => String c h :: t
           | [] => [String c EmptyString]
           end
  end.

Definition not_found_line (token : string) : string :=
  "⚠️ Not found: " +:+ token.

Section Selection.
(** [str.strip] and [str.lower] follow the Unicode tables; they are left
    open. *)
Variables strip lower : string -> string.

(** [{str(i): ch for i, ch in enumerate(channels)}], from index [i] on. *)
Fixpoint idx_map_from (i : nat) (channels : list Channel.t)
    (m : gmap string Channel.t) : gmap string Channel.t :=
  match channels with
  | [] => m
  | ch :: channels' =>
      idx_map_from (S i) channels' (<[str_of_nat i := ch]> m)
  end.

Definition idx_map (channels : list Channel.t) : gmap string Channel.t :=
  idx_map_from 0 channels ∅.

(** [{label_for_channel(ch, user_map).lower(): ch for ch in channels}]. *)
Definition label_map (channels : list Channel.t)
    (user_map : gmap string string) : gmap string Channel.t :=
  fold_left
    (fun m ch => <[lower (label_for_channel ch user_map) := ch]> m)
    channels ∅.

(** The loop over the tokens: the channels selected and the lines
    printed. *)
Fixpoint select_tokens (idx labels : gmap string Channel.t)
    (tokens : list string) : list Channel.t * list event :=
  match tokens with
  | [] => ([], [])
  | token :: tokens' =>
      let key := lower (strip token) in
      let '(selected, printed) := select_tokens idx labels tokens' in
      match idx !! key with
      | Some ch => (ch :: selected, printed)
      | None =>
          match labels !! key with
          | Some ch => (ch :: selected, printed)
          | None => (selected, Print (not_found_line token) :: printed)
          end
      end
  end.

Definition resolve_selection (channels : list Channel.t)
    (selection : string) (user_map : gmap string string)
  : list Channel.t * list event :=
  select_tokens (idx_map channels) (label_map channels user_map)
    (split_at "," selection).

(** ** The channels [main] exports *)

Record Args : Type := MakeArgs {
  arg_channels : option string;
  arg_all : bool;
  arg_all_channels : bool;
  arg_all_dms : bool
}.

(** The value of [selected] after the chain of tests on the arguments;
    [typed] is the line read from the console when the user is asked. *)
Definition selected (args : Args) (typed : string)
    (all_channels : list Channel.t) (user_map : gmap string string)
  : list Channel.t :=
  if arg_all args then all_channels
  else if arg_all_channels args
  then List.filter (fun c => negb (Channel.is_im c)) all_channels
  else if arg_all_dms args
  then List.filter Channel.is_im all_channels
  else if truthy (arg_channels args)
  then fst (resolve_selection all_channels
              (default "" (arg_channels args)) user_map)
  else
    let chan_input := strip typed in
    if String.eqb chan_input ""
    then all_channels
    else fst (resolve_selection all_channels chan_input user_map).
End Selection.

(** The channel whose label, in small letters, is [key]: the last one when
    several bear it. *)
Definition labelled (lower : string -> string) (channels : list Channel.t)
    (user_map : gmap string string) (key : string) : option Channel.t :=
  find (fun ch => String.eqb (lower (label_for_channel ch user_map)) key)
    (rev channels).

(** [strip] and [lower] on text of the ASCII range, for the examples. *)
Module Plain.
Definition is_space (c : ascii) : bool :=
  let n := nat_of_ascii c in
  (Nat.leb 9 n && Nat.leb n 13) || Nat.eqb n 32.

Fixpoint lstrip (s : string) : string :=
  match s with
  | String c s' => if is_space c then lstrip s' else s
  | EmptyString => EmptyString
  end.

Fixpoint rstrip (s : string) : string :=
  match s with
  | String c s' =>
      match rstrip s' with
      | EmptyString => if is_space c then EmptyString else String c EmptyString
      | r => String c r
      end
  | EmptyString => EmptyString
  end.

Definition strip (s : string) : string := rstrip (lstrip s).

Definition lower_char (c : ascii) : ascii :=
  let n := nat_of_ascii c in
  if Nat.leb 65 n && Nat.leb n 90 then ascii_of_nat (n + 32) else c.

Fixpoint lower (s : string) : string :=
  match s with
  | String c s' => String (lower_char c) (lower s')
  | EmptyString => EmptyString
  end.
End Plain.

(** ** [safe_name] *)

Definition is_ascii (c : ascii) : bool := Nat.ltb (nat_of_ascii c) 128.

(** A byte that goes on a character of several bytes. *)
Definition is_continuation (c : ascii) : bool :=
  let n := nat_of_ascii c in Nat.leb 128 n && Nat.leb n 191.

(** The characters of a text, which is held here in UTF-8: a character
    starts at every byte that is not a continuation byte. *)
Fixpoint chars (s : string) : list string :=
  match s with
  | EmptyString => []
  | String c s' =>
      match s' with
      | String d _ =>
          if is_continuation d
          then match chars s' with
               | h :: t => String c h :: t
               | [] => [String c EmptyString]
               end
          else String c EmptyString :: chars s'
      | EmptyString => [String c EmptyString]
      end
  end.

(** [c.isalnum()] for a character of the ASCII range. *)
Definition ascii_alnum (c : ascii) : bool :=
  let n := nat_of_ascii c in
  (Nat.leb 48 n && Nat.leb n 57) || (Nat.leb 65 n && Nat.leb n 90)
  || (Nat.leb 97 n && Nat.leb n 122).

Section SafeName.
(** [c.isalnum()] for a character outside the ASCII range, as the Unicode
    tables have it. *)
Variable wide_alnum : string -> bool.

(** [c.isalnum()]: decided here for a character of the ASCII range,
    looked up in the tables for one that lies wholly outside it. *)
Definition isalnum (ch : string) : bool :=
  match ch with
  | String c EmptyString =>
      if is_ascii c then ascii_alnum c else wide_alnum ch
  | _ => string_forallb (fun b => negb (is_ascii b)) ch && wide_alnum ch
  end.

(** [c if c.isalnum() or c in "-_." else "_"]. *)
Definition safe_char (ch : string) : string :=
  if isalnum ch || String.eqb ch "-" || String.eqb ch "_"
     || String.eqb ch "."
  then ch else "_".

Definition safe_name (name : string) : string :=
  String.concat "" (map safe_char (chars name)).

(** The name of the file of a channel in [main], without [.txt]. *)
Definition base_name (ch : Channel.t) (user_map : gmap string string)
  : string :=
  if Channel.is_im ch
  then "dm-"
         +:+ safe_name (default (Channel.id ch)
                          (Channel.user ch ≫= fun u => user_map !! u))
  else safe_name (default (Channel.id ch) (Channel.name ch)).
End SafeName.

(** A byte of a character outside ASCII, a letter, a digit or one of
    [-], [_] and [.]. *)
Definition safe_byte (b : ascii) : bool :=
  negb (is_ascii b) || ascii_alnum b || Ascii.eqb b "-" || Ascii.eqb b "_"
  || Ascii.eqb b ".".

(** A character as [chars] cuts it: a byte and continuation bytes. *)
Definition piece (g : string) : Prop :=
  match g with
  | String _ r => string_forallb is_continuation r = true
  | EmptyString => False
  end.

(** A text that does not go on the character before it. *)
Definition fresh (s : string) : Prop :=
  match s with
  | String c _ => is_continuation c = false
  | EmptyString => True
  end.

Definition grouped (l : list string) : Prop :=
  match l with
  | [] => True
  | g :: l' => piece g ∧ Forall (fun g => piece g ∧ fresh g) l'
  end.

(** * Properties *)

(** ** Runs and scripts *)

Lemma result_after {A R} (evs : list event) (r : run A R) :
  result (after evs r) = result r.
Proof. reflexivity. Qed.

Lemma unread_after {A R} (evs : list event) (r : run A R) :
  unread (after evs r) = unread r.
Proof. reflexivity. Qed.

Lemma events_after {A R} (evs : list event) (r : run A R) :
  events (after evs r) = evs ++ events r.
Proof. reflexivity. Qed.

Lemma calls_app (e1 e2 : list event) : calls (e1 ++ e2) = calls e1 ++ calls e2.
Proof.
  induction e1 as [|[q|s|l] e1 IH]; simpl; [reflexivity|rewrite IH..];
    reflexivity.
Qed.

Lemma pages_app {A} (s1 s2 : list (reply A)) :
  pages (s1 ++ s2) = pages s1 ++ pages s2.
Proof.
  induction s1 as [|[r|e] s1 IH]; simpl; [reflexivity|rewrite IH|exact IH].
  reflexivity.
Qed.

Lemma fetched_app {A} (s1 s2 : list (reply A)) :
  fetched (s1 ++ s2) = fetched s1 ++ fetched s2.
Proof. unfold fetched. now rewrite pages_app, map_app, concat_app. Qed.

Lemma fetched_answer {A} (r : page A) (s : list (reply A)) :
  fetched (Answer r :: s) = items r ++ fetched s.
Proof. reflexivity. Qed.

Lemma fetched_last {A} (r : page A) : fetched [Answer r] = items r.
Proof. unfold fetched. simpl. apply app_nil_r. Qed.

Lemma fetched_failure {A} (e : SlackApiError) (s : list (reply A)) :
  fetched (Failure e :: s) = fetched s.
Proof. reflexivity. Qed.

Lemma thread_replies_answer (r : page Message.t) s :
  thread_replies (Answer r :: s) = tail (items r) ++ thread_replies s.
Proof. reflexivity. Qed.

Lemma thread_replies_failure (e : SlackApiError) s :
  thread_replies (Failure e :: s) = thread_replies s.
Proof. reflexivity. Qed.

Lemma thread_replies_app s1 s2 :
  thread_replies (s1 ++ s2) = thread_replies s1 ++ thread_replies s2.
Proof. unfold thread_replies. now rewrite pages_app, map_app, concat_app. Qed.

Lemma add_members_app m us1 us2 :
  add_members m (us1 ++ us2) = add_members (add_members m us1) us2.
Proof. unfold add_members. apply fold_left_app. Qed.

(** A complete script is a last reply that stops the loop after replies
    that all keep it going. *)
Lemma complete_inv {A} (s : list (reply A)) :
  complete s = true →
  ∃ pre t, s = pre ++ [t] ∧ Forall (fun a => goes_on a = true) pre
           ∧ goes_on t = false.
Proof.
  unfold complete. intros H.
  destruct (rev s) as [|t pre] eqn:E; [discriminate|].
  apply andb_prop in H as [Ht Hpre].
  exists (rev pre), t. split; [|split].
  - rewrite <- (rev_involutive s), E. reflexivity.
  - rewrite List.Forall_forall. intros a Ha.
    rewrite forallb_forall in Hpre. apply Hpre. now apply in_rev.
  - now destruct (goes_on t).
Qed.

Lemma complete_intro {A} (pre : list (reply A)) t :
  Forall (fun a => goes_on a = true) pre → goes_on t = false →
  complete (pre ++ [t]) = true.
Proof.
  intros Hpre Ht. unfold complete. rewrite rev_app_distr. simpl.
  rewrite Ht. simpl. rewrite forallb_forall. intros a Ha.
  rewrite List.Forall_forall in Hpre. apply Hpre. now apply in_rev.
Qed.

Lemma last_page_stops {A} (a : reply A) : last_page a = true → goes_on a = false.
Proof.
  destruct a as [r|e]; simpl; [|discriminate].
  now destruct (truthy (next_cursor r)).
Qed.

(** ** The four loops on a script that ends *)

(** Case analysis on the head of the script of a loop with a handler. *)
Ltac loop_head a H :=
  destruct a as [?r|?e]; simpl in H; simpl; rewrite ?H; simpl.

Section Loops.
Variable float : string -> Q.

Lemma fetch_all_channels_loop_ends types pre t rest channels cursor :
  Forall (fun a => has_more a = true) pre → last_page t = true →
  result (fetch_all_channels_loop types (pre ++ t :: rest) channels cursor)
    = Returned (channels ++ fetched (pre ++ [t]))
  ∧ unread (fetch_all_channels_loop types (pre ++ t :: rest) channels cursor)
    = rest.
Proof.
  intros Hpre Ht. revert channels cursor.
  induction Hpre as [|a pre Ha _ IH]; intros channels cursor.
  - loop_head t Ht; [|discriminate].
    destruct (truthy (next_cursor r)); [discriminate|]. simpl.
    now rewrite fetched_last.
  - loop_head a Ha; [|discriminate].
    rewrite ?result_after, ?unread_after, fetched_answer, app_assoc.
    apply IH.
Qed.

Lemma fetch_all_channels_loop_raises types pre e rest channels cursor :
  Forall (fun a => has_more a = true) pre →
  result (fetch_all_channels_loop types (pre ++ Failure e :: rest)
            channels cursor) = Raised e.
Proof.
  intros Hpre. revert channels cursor.
  induction Hpre as [|a pre Ha _ IH]; intros channels cursor.
  - reflexivity.
  - loop_head a Ha; [|discriminate]. rewrite ?result_after. apply IH.
Qed.

Lemma fetch_user_map_loop_ends pre t rest m cursor backoff :
  Forall (fun a => goes_on a = true) pre → goes_on t = false →
  result (fetch_user_map_loop (pre ++ t :: rest) m cursor backoff)
    = Returned (add_members m (fetched (pre ++ [t])))
  ∧ unread (fetch_user_map_loop (pre ++ t :: rest) m cursor backoff) = rest.
Proof.
  intros Hpre Ht. revert m cursor backoff.
  induction Hpre as [|a pre Ha _ IH]; intros m cursor backoff.
  - loop_head t Ht.
    + now rewrite fetched_last.
    + now split.
  - loop_head a Ha; rewrite ?result_after, ?unread_after.
    + rewrite fetched_answer, add_members_app. apply IH.
    + rewrite fetched_failure. apply IH.
Qed.

Lemma fetch_thread_loop_ends ch ts idx total pause verbose
    pre t rest replies cursor :
  Forall (fun a => goes_on a = true) pre → goes_on t = false →
  result (fetch_thread_loop ch ts idx total pause verbose
            (pre ++ t :: rest) replies cursor)
    = Returned (replies ++ thread_replies (pre ++ [t]))
  ∧ unread (fetch_thread_loop ch ts idx total pause verbose
              (pre ++ t :: rest) replies cursor) = rest.
Proof.
  intros Hpre Ht. revert replies cursor.
  induction Hpre as [|a pre Ha _ IH]; intros replies cursor.
  - loop_head t Ht.
    + unfold thread_replies. simpl. now rewrite app_nil_r.
    + unfold thread_replies. simpl. now rewrite app_nil_r.
  - loop_head a Ha; rewrite ?result_after, ?unread_after.
    + rewrite thread_replies_answer, app_assoc. apply IH.
    + rewrite thread_replies_failure. apply IH.
Qed.

Lemma history_loop_ends ch start_ts end_ts pre t rest tops threads cursor :
  Forall (fun a => goes_on a = true) pre → goes_on t = false →
  result (history_loop float ch start_ts end_ts (pre ++ t :: rest)
            tops threads cursor)
    = Returned (fold_left (keep_message float start_ts end_ts)
                  (fetched (pre ++ [t])) (tops, threads))
  ∧ unread (history_loop float ch start_ts end_ts (pre ++ t :: rest)
              tops threads cursor) = rest.
Proof.
  intros Hpre Ht. revert tops threads cursor.
  induction Hpre as [|a pre Ha _ IH]; intros tops threads cursor.
  - loop_head t Ht.
    + now rewrite fetched_last.
    + now split.
  - loop_head a Ha; rewrite ?result_after, ?unread_after.
    + rewrite fetched_answer, fold_left_app.
      destruct (fold_left _ (items r) (tops, threads)) as [tops' threads'].
      apply IH.
    + rewrite fetched_failure. apply IH.
Qed.

(** While no reply stops them the loops keep asking: on a script
    without a stopping reply they are left waiting. *)
Lemma fetch_all_channels_loop_waits types script channels cursor :
  Forall (fun a => has_more a = true) script →
  result (fetch_all_channels_loop types script channels cursor) = Pending.
Proof.
  intros H. revert channels cursor.
  induction H as [|a s Ha _ IH]; intros channels cursor; [reflexivity|].
  loop_head a Ha; [|discriminate]. rewrite ?result_after. apply IH.
Qed.

Lemma fetch_user_map_loop_waits script m cursor backoff :
  Forall (fun a => goes_on a = true) script →
  result (fetch_user_map_loop script m cursor backoff) = Pending.
Proof.
  intros H. revert m cursor backoff.
  induction H as [|a s Ha _ IH]; intros m cursor backoff; [reflexivity|].
  loop_head a Ha; rewrite ?result_after; apply IH.
Qed.

Lemma fetch_thread_loop_waits ch ts idx total pause verbose
    script replies cursor :
  Forall (fun a => goes_on a = true) script →
  result (fetch_thread_loop ch ts idx total pause verbose
            script replies cursor) = Pending.
Proof.
  intros H. revert replies cursor.
  induction H as [|a s Ha _ IH]; intros replies cursor; [reflexivity|].
  loop_head a Ha; rewrite ?result_after; apply IH.
Qed.

Lemma history_loop_waits ch start_ts end_ts script tops threads cursor :
  Forall (fun a => goes_on a = true) script →
  result (history_loop float ch start_ts end_ts script tops threads cursor)
    = Pending.
Proof.
  intros H. revert tops threads cursor.
  induction H as [|a s Ha _ IH]; intros tops threads cursor; [reflexivity|].
  loop_head a Ha; rewrite ?result_after; apply IH.
Qed.
End Loops.

(** ** What the history loop keeps *)

Section History.
Variable float : string -> Q.
Variables (start_ts end_ts : Z).

Local Abbreviation keep := (keep_message float start_ts end_ts).
Local Abbreviation keeps := (kept float start_ts end_ts).

Lemma keep_message_kept tops threads m :
  keeps m = true →
  keep (tops, threads) m
    = (tops ++ [m],
       if is_thread_parent m then dict_set (Message.ts m) [] threads
       else threads).
Proof.
  unfold kept, keep_message. intros H.
  apply andb_prop in H as [H1 H2].
  destruct (skipped_subtype m); [discriminate|]. now rewrite H2.
Qed.

Lemma keep_message_dropped acc m : keeps m = false → keep acc m = acc.
Proof.
  unfold kept, keep_message. intros H. destruct acc as [tops threads].
  destruct (skipped_subtype m); [reflexivity|]. simpl in H. now rewrite H.
Qed.

Lemma fold_keep_message ms tops threads :
  fold_left keep ms (tops, threads)
    = (tops ++ List.filter keeps ms,
       open_threads float start_ts end_ts threads ms).
Proof.
  revert tops threads. induction ms as [|m ms IH]; intros tops threads.
  - simpl. now rewrite app_nil_r.
  - change (fold_left keep (m :: ms) (tops, threads))
      with (fold_left keep ms (keep (tops, threads) m)).
    unfold open_threads. simpl List.filter.
    destruct (keeps m) eqn:K.
    + rewrite keep_message_kept by exact K. rewrite IH.
      rewrite <- app_assoc. simpl.
      destruct (is_thread_parent m); reflexivity.
    + rewrite keep_message_dropped by exact K. apply IH.
Qed.
End History.

(** ** Dictionaries *)

Lemma existsb_eqb_In (k : string) l :
  existsb (String.eqb k) l = true ↔ In k l.
Proof.
  rewrite existsb_exists. split.
  - intros (x & Hx & E). apply String.eqb_eq in E. now subst.
  - intros H. exists k. split; [exact H|apply String.eqb_refl].
Qed.

Lemma existsb_eqb_not_In (k : string) l :
  existsb (String.eqb k) l = false ↔ ¬ In k l.
Proof.
  rewrite <- existsb_eqb_In. destruct (existsb _ l); split; intros H;
    congruence || (exfalso; now apply H) || discriminate.
Qed.

Lemma dict_set_absent {V} (k : string) (v : V) d :
  ¬ In k (dict_keys d) → dict_set k v d = d ++ [(k, v)].
Proof.
  induction d as [|[k' v'] d IH]; simpl; intros H; [reflexivity|].
  destruct (String.eqb_spec k' k) as [->|_]; [tauto|].
  rewrite IH by tauto. reflexivity.
Qed.

Lemma dict_set_here {V} (k : string) (v v' : V) front back :
  ¬ In k (dict_keys front) →
  dict_set k v (front ++ (k, v') :: back) = front ++ (k, v) :: back.
Proof.
  induction front as [|[k0 v0] front IH]; simpl; intros H.
  - now rewrite String.eqb_refl.
  - destruct (String.eqb_spec k0 k) as [->|_]; [tauto|].
    rewrite IH by tauto. reflexivity.
Qed.

Lemma dict_set_same {V} (k : string) (v : V) d :
  dict_get d k = Some v → dict_set k v d = d.
Proof.
  induction d as [|[k' v'] d IH]; simpl; [discriminate|].
  destruct (String.eqb_spec k' k) as [->|_].
  - now intros [= ->].
  - intros H. now rewrite IH.
Qed.

Lemma dict_keys_blank {V} ks : dict_keys (@blank V ks) = ks.
Proof.
  unfold dict_keys, blank. rewrite map_map. simpl. apply map_id.
Qed.

Lemma dict_get_blank {V} ks k :
  In k ks → dict_get (@blank V ks) k = Some [].
Proof.
  induction ks as [|k' ks IH]; simpl; [tauto|].
  destruct (String.eqb_spec k' k) as [->|N]; [reflexivity|].
  intros [E|H]; [congruence|now apply IH].
Qed.

Lemma first_seen_from_fresh seen l k :
  In k (first_seen_from seen l) → ¬ In k seen.
Proof.
  revert seen. induction l as [|x l IH]; simpl; intros seen; [tauto|].
  destruct (existsb (String.eqb x) seen) eqn:E.
  - apply IH.
  - intros [->|H].
    + now apply existsb_eqb_not_In.
    + apply IH in H. intros Hk. apply H. apply in_or_app. now left.
Qed.

Lemma first_seen_from_NoDup seen l : List.NoDup (first_seen_from seen l).
Proof.
  revert seen. induction l as [|x l IH]; simpl; intros seen; [constructor|].
  destruct (existsb (String.eqb x) seen); [apply IH|].
  constructor; [|apply IH].
  intros H. apply first_seen_from_fresh in H. apply H.
  apply in_or_app. right. now left.
Qed.

Lemma first_seen_NoDup l : List.NoDup (first_seen l).
Proof. apply first_seen_from_NoDup. Qed.

Lemma first_seen_from_In seen l k :
  In k (first_seen_from seen l) ↔ In k l ∧ ¬ In k seen.
Proof.
  revert seen. induction l as [|x l IH]; simpl; intros seen; [tauto|].
  destruct (existsb (String.eqb x) seen) eqn:E.
  - apply existsb_eqb_In in E. rewrite IH. split.
    + tauto.
    + intros [[->|H] N]; tauto.
  - apply existsb_eqb_not_In in E. simpl. rewrite IH, in_app_iff. simpl.
    destruct (string_dec x k) as [->|N]; [tauto|]. tauto.
Qed.

Lemma first_seen_In l k : In k (first_seen l) ↔ In k l.
Proof. unfold first_seen. rewrite first_seen_from_In. simpl. tauto. Qed.

(** Setting keys to the empty list, one after the other, in a blank
    dictionary leaves one blank entry per distinct key, in the order in
    which the keys first came. *)
Lemma fold_dict_set_blank {V} (ks seen : list string) :
  fold_left (fun d k => dict_set k [] d) ks (@blank V seen)
    = blank (seen ++ first_seen_from seen ks).
Proof.
  revert seen. induction ks as [|k ks IH]; intros seen; simpl.
  - now rewrite app_nil_r.
  - destruct (existsb (String.eqb k) seen) eqn:E.
    + apply existsb_eqb_In in E.
      rewrite dict_set_same by now apply dict_get_blank. apply IH.
    + apply existsb_eqb_not_In in E.
      rewrite dict_set_absent by now rewrite dict_keys_blank.
      change (blank seen ++ [(k, [])]) with (@blank V seen ++ blank [k]).
      unfold blank at 1 2. rewrite <- map_app. fold (@blank V (seen ++ [k])).
      rewrite IH. now rewrite <- app_assoc.
Qed.

(** ** The thread loop and the whole of [fetch_channel_structured] *)

Section Threads.
Variable float : string -> Q.
Variables (ch_id : string) (start_ts end_ts : Z)
          (thread_sleep : Q) (verbose : bool).

Lemma fetch_thread_complete ts idx total s rest :
  complete s = true →
  result (fetch_thread ch_id ts idx total thread_sleep verbose (s ++ rest))
    = Returned (thread_replies s)
  ∧ unread (fetch_thread ch_id ts idx total thread_sleep verbose (s ++ rest))
    = rest.
Proof.
  intros H. apply complete_inv in H as (pre & t & -> & Hpre & Ht).
  rewrite <- app_assoc. simpl. unfold fetch_thread.
  apply (fetch_thread_loop_ends ch_id ts idx total thread_sleep verbose
           pre t rest [] None Hpre Ht).
Qed.

(** Each key still blank is given what [fetch_thread] makes of the next
    complete part of the script. *)
Lemma threads_loop_fills ks : ∀ ss front idx total rest,
  length ss = length ks →
  Forall (fun s => complete s = true) ss →
  List.NoDup ks →
  (∀ k, In k ks → ¬ In k (dict_keys front)) →
  result (threads_loop ch_id thread_sleep verbose ks idx total
            (concat ss ++ rest) (front ++ blank ks))
    = Returned (front ++ combine ks (map thread_replies ss))
  ∧ unread (threads_loop ch_id thread_sleep verbose ks idx total
              (concat ss ++ rest) (front ++ blank ks))
    = rest.
Proof.
  induction ks as [|k ks IH]; intros ss front idx total rest Hlen Hss Hnd Hfr.
  - destruct ss; [|discriminate]. simpl. now rewrite !app_nil_r.
  - destruct ss as [|s ss]; [discriminate|].
    injection Hlen as Hlen. inversion Hss as [|? ? Hs Hss']; subst.
    inversion Hnd as [|? ? Hk Hnd']; subst.
    simpl concat. rewrite <- app_assoc.
    destruct (fetch_thread_complete k idx total s (concat ss ++ rest) Hs)
      as [Hres Hun].
    simpl threads_loop. rewrite Hres, Hun.
    rewrite ?result_after, ?unread_after.
    change (blank (k :: ks)) with ((k, @nil Message.t) :: blank ks).
    rewrite dict_set_here by (apply Hfr; now left).
    change (front ++ (k, thread_replies s) :: blank ks)
      with (front ++ [(k, thread_replies s)] ++ blank ks).
    rewrite app_assoc.
    destruct (IH ss (front ++ [(k, thread_replies s)]) (S idx) total rest
                Hlen Hss' Hnd') as [Hres' Hun'].
    + intros k' Hk'. unfold dict_keys. rewrite map_app, in_app_iff. simpl.
      intros [H|[H|[]]].
      * apply (Hfr k'); [now right|exact H].
      * subst. contradiction.
    + rewrite Hres', Hun'. simpl. now rewrite <- app_assoc.
Qed.

(** The history part of a script, then one part per thread. *)
Lemma fetch_channel_structured_complete hist ss rest :
  let tops := List.filter (kept float start_ts end_ts) (fetched hist) in
  let keys := first_seen (map Message.ts (List.filter is_thread_parent tops)) in
  complete hist = true →
  length ss = length keys →
  Forall (fun s => complete s = true) ss →
  result (fetch_channel_structured float ch_id start_ts end_ts
            thread_sleep verbose (hist ++ concat ss ++ rest))
    = Returned (tops, combine keys (map thread_replies ss))
  ∧ unread (fetch_channel_structured float ch_id start_ts end_ts
              thread_sleep verbose (hist ++ concat ss ++ rest))
    = rest.
Proof.
  intros tops keys Hh Hlen Hss.
  apply complete_inv in Hh as (pre & t & -> & Hpre & Ht).
  rewrite <- app_assoc. simpl app.
  destruct (history_loop_ends float ch_id start_ts end_ts pre t
              (concat ss ++ rest) [] [] None Hpre Ht) as [Hres Hun].
  unfold fetch_channel_structured. rewrite Hres, Hun.
  rewrite fold_keep_message. simpl app. fold tops.
  unfold open_threads. fold tops.
  change (@nil (string * list Message.t)) with (@blank Message.t []).
  rewrite fold_dict_set_blank. simpl app. fold (first_seen
    (map Message.ts (List.filter is_thread_parent tops))). fold keys.
  rewrite dict_keys_blank.
  destruct (threads_loop_fills keys ss [] 1 (length (@blank Message.t keys))
              rest Hlen Hss (first_seen_NoDup _)) as [Hres' Hun'].
  { intros k _ []. }
  simpl app in Hres', Hun'. rewrite Hres', Hun'. now split.
Qed.
End Threads.

(** ** Rate-limit errors leave no trace in the result *)

Section Throttling.
Variable float : string -> Q.

Lemma fetch_user_map_loop_unthrottled script : ∀ m cursor b1 b2,
  result (fetch_user_map_loop script m cursor b1)
    = result (fetch_user_map_loop (unthrottled script) m cursor b2).
Proof.
  induction script as [|[r|e] script IH]; intros m cursor b1 b2; simpl.
  - reflexivity.
  - destruct (truthy (next_cursor r)); [|reflexivity].
    rewrite ?result_after. apply IH.
  - destruct (ratelimited e) eqn:E; simpl.
    + rewrite ?result_after. apply IH.
    + rewrite E. reflexivity.
Qed.

Lemma fetch_thread_loop_unthrottled ch ts idx total pause verbose script :
  ∀ replies cursor,
  result (fetch_thread_loop ch ts idx total pause verbose script
            replies cursor)
    = result (fetch_thread_loop ch ts idx total pause verbose
                (unthrottled script) replies cursor).
Proof.
  induction script as [|[r|e] script IH]; intros replies cursor; simpl.
  - reflexivity.
  - destruct (truthy (next_cursor r)); [|reflexivity].
    rewrite ?result_after. apply IH.
  - destruct (ratelimited e) eqn:E; simpl.
    + rewrite ?result_after. apply IH.
    + rewrite E. reflexivity.
Qed.

Lemma history_loop_unthrottled ch start_ts end_ts script :
  ∀ tops threads cursor,
  result (history_loop float ch start_ts end_ts script tops threads cursor)
    = result (history_loop float ch start_ts end_ts (unthrottled script)
                tops threads cursor).
Proof.
  induction script as [|[r|e] script IH]; intros tops threads cursor; simpl.
  - reflexivity.
  - destruct (truthy (next_cursor r)); [|reflexivity].
    rewrite ?result_after. apply IH.
  - destruct (ratelimited e) eqn:E; simpl.
    + rewrite ?result_after. apply IH.
    + rewrite E. reflexivity.
Qed.

(** *** One request per reply read, with the cursor of the last page *)

Lemma fetch_user_map_loop_calls pre t rest : ∀ m cursor backoff,
  Forall (fun a => goes_on a = true) pre → goes_on t = false →
  calls (events (fetch_user_map_loop (pre ++ t :: rest) m cursor backoff))
    = map users_list (cursors cursor (pre ++ [t])).
Proof.
  intros m cursor backoff Hpre Ht. revert m cursor backoff.
  induction Hpre as [|a pre Ha _ IH]; intros m cursor backoff.
  - loop_head t Ht; reflexivity.
  - loop_head a Ha; f_equal; apply IH.
Qed.

Lemma fetch_thread_loop_calls ch ts idx total pause verbose pre t rest :
  ∀ replies cursor,
  Forall (fun a => goes_on a = true) pre → goes_on t = false →
  calls (events (fetch_thread_loop ch ts idx total pause verbose
                   (pre ++ t :: rest) replies cursor))
    = map (fun c => conversations_replies ch ts c 100)
        (cursors cursor (pre ++ [t])).
Proof.
  intros replies cursor Hpre Ht. revert replies cursor.
  induction Hpre as [|a pre Ha _ IH]; intros replies cursor.
  - loop_head t Ht; unfold thread_call; destruct verbose; reflexivity.
  - loop_head a Ha; rewrite !calls_app, IH;
      unfold thread_call; destruct verbose; reflexivity.
Qed.

Lemma history_loop_calls ch start_ts end_ts pre t rest :
  ∀ tops threads cursor,
  Forall (fun a => goes_on a = true) pre → goes_on t = false →
  calls (events (history_loop float ch start_ts end_ts (pre ++ t :: rest)
                   tops threads cursor))
    = map (fun c => conversations_history ch c 200 start_ts end_ts)
        (cursors cursor (pre ++ [t])).
Proof.
  intros tops threads cursor Hpre Ht. revert tops threads cursor.
  induction Hpre as [|a pre Ha _ IH]; intros tops threads cursor.
  - loop_head t Ht; reflexivity.
  - loop_head a Ha; f_equal; apply IH.
Qed.

(** *** What a rate-limit error makes each loop do *)

Lemma fetch_user_map_loop_throttled e script m cursor backoff :
  ratelimited e = true →
  fetch_user_map_loop (Failure e :: script) m cursor backoff
    = after [Call (users_list cursor);
             Print (users_wait_line (default backoff (retry_after e)));
             Sleep (inject_Z (default backoff (retry_after e)))]
        (fetch_user_map_loop script m cursor (Z.min (backoff * 2) 120)).
Proof. intros H. simpl. now rewrite H. Qed.

Lemma fetch_thread_loop_throttled ch ts idx total pause verbose
    e script replies cursor :
  ratelimited e = true →
  fetch_thread_loop ch ts idx total pause verbose
    (Failure e :: script) replies cursor
    = after (thread_call ch ts verbose cursor
               ++ [Print (thread_wait_line idx total
                            (default 30%Z (retry_after e)));
                   Sleep (inject_Z (default 30%Z (retry_after e)))])
        (fetch_thread_loop ch ts idx total pause verbose
           script replies cursor).
Proof. intros H. simpl. now rewrite H. Qed.

Lemma history_loop_throttled ch start_ts end_ts e script tops threads cursor :
  ratelimited e = true →
  history_loop float ch start_ts end_ts (Failure e :: script)
    tops threads cursor
    = after [history_call ch start_ts end_ts cursor;
             Print (history_wait_line (default 30%Z (retry_after e)));
             Sleep (inject_Z (default 30%Z (retry_after e))); Sleep 1]
        (history_loop float ch start_ts end_ts script tops threads cursor).
Proof. intros H. simpl. now rewrite H. Qed.

(** *** What any other error makes each loop do *)

Lemma fetch_user_map_loop_fails e script m cursor backoff :
  ratelimited e = false →
  fetch_user_map_loop (Failure e :: script) m cursor backoff
    = Run (Returned m)
        [Call (users_list cursor); Print (users_failed_line e)] script.
Proof. intros H. simpl. now rewrite H. Qed.

Lemma fetch_thread_loop_fails ch ts idx total pause verbose
    e script replies cursor :
  ratelimited e = false →
  fetch_thread_loop ch ts idx total pause verbose
    (Failure e :: script) replies cursor
    = Run (Returned replies)
        (thread_call ch ts verbose cursor ++ [Print (thread_failed_line e)])
        script.
Proof. intros H. simpl. now rewrite H. Qed.

Lemma history_loop_fails ch start_ts end_ts e script tops threads cursor :
  ratelimited e = false →
  history_loop float ch start_ts end_ts (Failure e :: script)
    tops threads cursor
    = Run (Returned (tops, threads))
        [history_call ch start_ts end_ts cursor;
         Print (history_failed_line e)] script.
Proof. intros H. simpl. now rewrite H. Qed.
(** On a script that ends with such an error the failure line is the
    last thing each loop does. *)
Lemma fetch_user_map_loop_reports pre e rest : ∀ m cursor backoff,
  Forall (fun a => goes_on a = true) pre → ratelimited e = false →
  ∃ evs, events (fetch_user_map_loop (pre ++ Failure e :: rest)
                   m cursor backoff)
         = evs ++ [Print (users_failed_line e)].
Proof.
  intros m cursor backoff Hpre He. revert m cursor backoff.
  induction Hpre as [|a pre Ha _ IH]; intros m cursor backoff.
  - simpl. rewrite He. now exists [Call (users_list cursor)].
  - loop_head a Ha;
      match goal with
      | |- context [fetch_user_map_loop _ ?m' ?c' ?b'] =>
          destruct (IH m' c' b') as [evs ->]
      end; eexists; rewrite ?app_comm_cons; reflexivity.
Qed.

Lemma fetch_thread_loop_reports ch ts idx total pause verbose pre e rest :
  ∀ replies cursor,
  Forall (fun a => goes_on a = true) pre → ratelimited e = false →
  ∃ evs, events (fetch_thread_loop ch ts idx total pause verbose
                   (pre ++ Failure e :: rest) replies cursor)
         = evs ++ [Print (thread_failed_line e)].
Proof.
  intros replies cursor Hpre He. revert replies cursor.
  induction Hpre as [|a pre Ha _ IH]; intros replies cursor.
  - simpl. rewrite He. simpl. eauto.
  - loop_head a Ha;
      match goal with
      | |- context [fetch_thread_loop _ _ _ _ _ _ _ ?r' ?c'] =>
          destruct (IH r' c') as [evs ->]
      end; eexists; rewrite app_assoc; reflexivity.
Qed.

Lemma history_loop_reports ch start_ts end_ts pre e rest :
  ∀ tops threads cursor,
  Forall (fun a => goes_on a = true) pre → ratelimited e = false →
  ∃ evs, events (history_loop float ch start_ts end_ts
                   (pre ++ Failure e :: rest) tops threads cursor)
         = evs ++ [Print (history_failed_line e)].
Proof.
  intros tops threads cursor Hpre He. revert tops threads cursor.
  induction Hpre as [|a pre Ha _ IH]; intros tops threads cursor.
  - simpl. rewrite He. now exists [history_call ch start_ts end_ts cursor].
  - loop_head a Ha;
      match goal with
      | |- context [history_loop _ _ _ _ _ ?t' ?d' ?c'] =>
          destruct (IH t' d' c') as [evs ->]
      end; eexists; rewrite ?app_comm_cons; reflexivity.
Qed.
End Throttling.

(** ** Strings *)

#[local] Arguments String.append !s1 s2 : simpl nomatch.

Lemma append_nil_r s : s +:+ "" = s.
Proof. induction s as [|c s IH]; simpl; [reflexivity|now rewrite IH]. Qed.

Lemma append_assoc a b c : (a +:+ b) +:+ c = a +:+ b +:+ c.
Proof. induction a as [|x a IH]; simpl; [reflexivity|now rewrite IH]. Qed.

Lemma length_append a b :
  String.length (a +:+ b) = String.length a + String.length b.
Proof. induction a as [|x a IH]; simpl; [reflexivity|now rewrite IH]. Qed.

Lemma string_forallb_append p a b :
  string_forallb p (a +:+ b) = string_forallb p a && string_forallb p b.
Proof.
  induction a as [|x a IH]; simpl; [reflexivity|].
  now rewrite IH, andb_assoc.
Qed.

Lemma strip_prefix_cons a lit b s :
  strip_prefix (String a lit) (String b s)
    = if Ascii.eqb a b then strip_prefix lit s else None.
Proof. reflexivity. Qed.

Lemma strip_prefix_append lit s : strip_prefix lit (lit +:+ s) = Some s.
Proof.
  induction lit as [|c lit IH]; simpl; [now destruct s|].
  now rewrite Ascii.eqb_refl.
Qed.

Lemma strip_prefix_Some lit : ∀ s r, strip_prefix lit s = Some r → s = lit +:+ r.
Proof.
  induction lit as [|c lit IH]; intros s r; simpl.
  - destruct s; now intros [= ->].
  - destruct s as [|d s]; [discriminate|].
    destruct (Ascii.eqb_spec c d) as [->|_]; [|discriminate].
    intros H. apply IH in H. now subst.
Qed.

(** A character foreign to [lit] cuts short any attempt to read [lit]
    across it. *)
Lemma strip_prefix_break lit b x : ∀ a,
  lacks b lit = true →
  strip_prefix lit (a +:+ String b x)
    = option_map (fun r => r +:+ String b x) (strip_prefix lit a).
Proof.
  induction lit as [|c lit IH]; intros a H; simpl.
  - now destruct a.
  - simpl in H. apply andb_prop in H as [Hc Hlit].
    destruct a as [|d a]; simpl.
    + now destruct (Ascii.eqb c b).
    + destruct (Ascii.eqb c d); [now apply IH|reflexivity].
Qed.

Lemma strip_prefix_None_break lit b x : ∀ a,
  lacks b lit = true → strip_prefix lit a = None →
  strip_prefix lit (a +:+ String b x) = None.
Proof. intros a H N. now rewrite strip_prefix_break, N. Qed.

Lemma span_spec p : ∀ s a b,
  span p s = (a, b) →
  s = a +:+ b ∧ string_forallb p a = true
  ∧ match b with String c _ => p c = false | EmptyString => True end.
Proof.
  induction s as [|c s IH]; intros a b; simpl.
  - now intros [= <- <-].
  - destruct (p c) eqn:E.
    + destruct (span p s) as [a' b'] eqn:S. intros [= <- <-].
      destruct (IH a' b' eq_refl) as (-> & Ha & Hb).
      simpl. now rewrite E.
    + intros [= <- <-]. simpl. now rewrite E.
Qed.

Lemma span_stop p g c rest :
  string_forallb p g = true → p c = false →
  span p (g +:+ String c rest) = (g, String c rest).
Proof.
  induction g as [|x g IH]; simpl; intros Hg Hc.
  - now rewrite Hc.
  - apply andb_prop in Hg as [Hx Hg]. now rewrite Hx, IH.
Qed.

Lemma span_break p b x : ∀ s,
  p b = false →
  span p (s +:+ String b x)
    = (fst (span p s),
       match snd (span p s) with
       | EmptyString => String b x
       | r => r +:+ String b x
       end).
Proof.
  induction s as [|c s IH]; intros Hb; simpl.
  - now rewrite Hb.
  - destruct (p c) eqn:E; [|reflexivity].
    rewrite IH by exact Hb. destruct (span p s) as [a r]. simpl.
    now destruct r.
Qed.

Lemma id_char_not_lt g : string_forallb is_id_char g = true → lacks "<" g = true.
Proof.
  unfold lacks. induction g as [|c g IH]; simpl; [reflexivity|].
  intros H. apply andb_prop in H as [Hc Hg]. rewrite IH by exact Hg.
  destruct (Ascii.eqb_spec c "<") as [->|_]; [discriminate|reflexivity].
Qed.

(** ** Matching *)

Lemma match_at_sound p s g rest :
  match_at p s = Some (g, rest) → s = token p g +:+ rest ∧ group_of p g.
Proof.
  unfold match_at, token, group_of.
  destruct (strip_prefix (opening p) s) as [s1|] eqn:E1; [|discriminate].
  destruct (span is_id_char s1) as [g' s2] eqn:E2.
  destruct s2 as [|c s3]; [discriminate|].
  destruct (Ascii.eqb_spec c ">") as [->|_]; [|discriminate]. simpl.
  destruct (admits p g') eqn:E3; [|discriminate].
  intros [= <- <-].
  apply strip_prefix_Some in E1. apply span_spec in E2 as (-> & Hg & _).
  subst s. rewrite !append_assoc. simpl. auto.
Qed.

Lemma match_at_complete p g rest :
  group_of p g → match_at p (token p g +:+ rest) = Some (g, rest).
Proof.
  intros [Hg Ha]. unfold match_at, token.
  rewrite !append_assoc, strip_prefix_append. simpl.
  rewrite span_stop by (exact Hg || reflexivity). simpl. now rewrite Ha.
Qed.

Lemma match_at_nil p : match_at p "" = None.
Proof.
  unfold match_at. destruct (opening p); simpl; reflexivity.
Qed.

Lemma match_at_shorter p s g rest :
  match_at p s = Some (g, rest) → String.length rest < String.length s.
Proof.
  intros H. apply match_at_sound in H as [-> _]. unfold token.
  rewrite !length_append. simpl. lia.
Qed.

(** ** Substitution *)

Section Substitution.
Variables (p : pattern) (repl : string -> string).

Lemma re_sub_fuel_enough n : ∀ m s,
  String.length s <= n → String.length s <= m →
  re_sub_fuel n p repl s = re_sub_fuel m p repl s.
Proof.
  induction n as [|n IH]; intros m s Hn Hm.
  - destruct s; [|simpl in Hn; lia].
    destruct m; simpl; [reflexivity|]. now rewrite match_at_nil.
  - destruct m as [|m].
    + destruct s; [|simpl in Hm; lia]. simpl. now rewrite match_at_nil.
    + simpl. destruct (match_at p s) as [[g rest]|] eqn:E.
      * apply match_at_shorter in E. f_equal. apply IH; lia.
      * destruct s as [|c s]; [reflexivity|]. simpl in Hn, Hm.
        f_equal. apply IH; lia.
Qed.

Lemma re_sub_nil : re_sub p repl "" = "".
Proof. reflexivity. Qed.

Lemma re_sub_hit s g rest :
  match_at p s = Some (g, rest) →
  re_sub p repl s = repl g +:+ re_sub p repl rest.
Proof.
  intros H. unfold re_sub.
  destruct (String.length s) as [|n] eqn:L.
  - apply match_at_shorter in H. lia.
  - simpl. rewrite H. f_equal.
    apply match_at_shorter in H. apply re_sub_fuel_enough; lia.
Qed.

Lemma re_sub_skip c s :
  match_at p (String c s) = None →
  re_sub p repl (String c s) = String c (re_sub p repl s).
Proof. intros H. unfold re_sub. simpl. now rewrite H. Qed.

(** Text without a match is returned as it is. *)
Lemma re_sub_no_match txt : ¬ has_match p txt → re_sub p repl txt = txt.
Proof.
  intros H.
  assert (G : ∀ s pre, txt = pre +:+ s → re_sub p repl s = s).
  { induction s as [|c s IH]; intros pre E; [reflexivity|].
    rewrite re_sub_skip.
    - f_equal. apply (IH (pre +:+ String c "")).
      now rewrite append_assoc.
    - destruct (match_at p (String c s)) as [[g rest]|] eqn:M; [|reflexivity].
      exfalso. apply H. apply match_at_sound in M as [M Hg].
      exists pre, g, rest. now rewrite <- M. }
  now apply (G txt "").
Qed.

Lemma finds_sound : ∀ txt, finds p txt = true → has_match p txt.
Proof.
  induction txt as [|c txt IH]; simpl.
  - now rewrite match_at_nil.
  - destruct (match_at p (String c txt)) as [[g rest]|] eqn:M.
    + intros _. apply match_at_sound in M as [M Hg].
      now exists "", g, rest.
    + intros H. destruct (IH H) as (pre & g & post & -> & Hg).
      now exists (String c pre), g, post.
Qed.

Lemma finds_complete txt : has_match p txt → finds p txt = true.
Proof.
  intros (pre & g & post & -> & Hg).
  induction pre as [|c pre IH].
  - simpl append. destruct (token p g +:+ post) eqn:E;
      simpl; rewrite <- ?E, match_at_complete by exact Hg; reflexivity.
  - simpl. destruct (match_at p _); [reflexivity|exact IH].
Qed.

(** From here on the pattern opens with [<], as the three of
    [resolve_text] do. *)
Hypothesis opening_lt : ∃ o, opening p = String "<" o.

Lemma match_at_not_lt c s : c ≠ "<"%char → match_at p (String c s) = None.
Proof.
  intros N. destruct opening_lt as [o E]. unfold match_at.
  rewrite E, strip_prefix_cons.
  destruct (Ascii.eqb_spec "<" c) as [<-|_]; [contradiction|reflexivity].
Qed.

(** Text without [<] is copied. *)
Lemma re_sub_plain : ∀ s y,
  lacks "<" s = true → re_sub p repl (s +:+ y) = s +:+ re_sub p repl y.
Proof.
  induction s as [|c s IH]; intros y H; [reflexivity|].
  simpl in H. apply andb_prop in H as [Hc Hs]. simpl.
  rewrite re_sub_skip, IH by exact Hs || (apply match_at_not_lt;
    destruct (Ascii.eqb_spec c "<"); [discriminate|assumption]).
  reflexivity.
Qed.

(** A match that starts before a breaking character ends before it. *)
Lemma match_at_break b x a :
  breaks p b = true → a ≠ "" →
  match_at p (a +:+ String b x)
    = option_map (fun gr => (fst gr, snd gr +:+ String b x)) (match_at p a).
Proof.
  intros B N. destruct opening_lt as [o E].
  unfold breaks in B. rewrite E in B.
  apply andb_prop in B as [B Bo]. apply andb_prop in B as [Bid Bgt].
  apply negb_true_iff in Bid, Bgt.
  destruct a as [|a0 a]; [contradiction|].
  unfold match_at. rewrite E. simpl append. rewrite !strip_prefix_cons.
  destruct (Ascii.eqb "<" a0); [|reflexivity].
  rewrite strip_prefix_break by exact Bo.
  destruct (strip_prefix o a) as [s1|]; [|reflexivity]. simpl.
  rewrite span_break by exact Bid.
  destruct (span is_id_char s1) as [g r]. simpl.
  destruct r as [|c r]; simpl.
  - now rewrite Bgt.
  - now destruct (Ascii.eqb c ">" && admits p g).
Qed.

(** So the text before a breaking character is substituted on its
    own. *)
Lemma re_sub_break b x :
  breaks p b = true →
  ∀ a, re_sub p repl (a +:+ String b x)
       = re_sub p repl a +:+ re_sub p repl (String b x).
Proof.
  intros B a.
  remember (String.length a) as n eqn:L. revert a L.
  induction n as [n IH] using lt_wf_ind. intros a L.
  destruct a as [|c a]; [reflexivity|].
  pose proof (match_at_break b x (String c a) B) as M.
  destruct (match_at p (String c a)) as [[g r]|] eqn:E.
  - rewrite (re_sub_hit _ g r E).
    rewrite (re_sub_hit _ g (r +:+ String b x)) by now apply M.
    apply match_at_shorter in E.
    rewrite (IH (String.length r)) by (subst; lia || reflexivity).
    now rewrite append_assoc.
  - simpl append. rewrite re_sub_skip by (now apply M).
    rewrite re_sub_skip by exact E.
    simpl in L. rewrite (IH (String.length a)) by (subst; lia || reflexivity).
    reflexivity.
Qed.

(** A match is replaced, whatever stands around it. *)
Lemma re_sub_token pre g post :
  breaks p "<" = true → group_of p g →
  re_sub p repl (pre +:+ token p g +:+ post)
    = re_sub p repl pre +:+ repl g +:+ re_sub p repl post.
Proof.
  intros B Hg. destruct opening_lt as [o E].
  assert (T : ∃ x, token p g +:+ post = String "<" x).
  { unfold token. rewrite E. simpl. eauto. }
  destruct T as [x T]. rewrite T, re_sub_break by exact B.
  rewrite <- T, (re_sub_hit (token p g +:+ post) g post)
    by now apply match_at_complete.
  reflexivity.
Qed.

(** Text that opens with a breaking character and has no [<] is copied,
    and the texts on its two sides are substituted each on its own. *)
Lemma re_sub_inert pre b mid post :
  breaks p b = true → lacks "<" (String b mid) = true →
  re_sub p repl (pre +:+ String b mid +:+ post)
    = re_sub p repl pre +:+ String b mid +:+ re_sub p repl post.
Proof.
  intros B L. simpl append. rewrite re_sub_break by exact B.
  change (String b (mid +:+ post)) with (String b mid +:+ post).
  now rewrite re_sub_plain.
Qed.

(** The same for a bracketed text that is no match. *)
Lemma re_sub_bracket pre inner post :
  breaks p "<" = true → lacks "<" inner = true →
  match_at p (String "<" (inner +:+ post)) = None →
  re_sub p repl (pre +:+ String "<" inner +:+ post)
    = re_sub p repl pre +:+ String "<" inner +:+ re_sub p repl post.
Proof.
  intros B L M. simpl append. rewrite re_sub_break by exact B.
  rewrite re_sub_skip by exact M. now rewrite re_sub_plain.
Qed.
End Substitution.

(** ** [resolve_text] *)

Lemma user_ref_opens : ∃ o, opening user_ref = String "<" o.
Proof. now exists "@". Qed.

Lemma plain_ref_opens : ∃ o, opening plain_ref = String "<" o.
Proof. now exists "". Qed.

Lemma group_ref_opens : ∃ o, opening group_ref = String "<" o.
Proof. now exists "!subteam^". Qed.

(** The first pattern wants [@] after the bracket. *)
Lemma user_ref_wants_at c y :
  c ≠ "@"%char → match_at user_ref (String "<" (String c y)) = None.
Proof.
  intros N. unfold match_at. simpl opening. rewrite !strip_prefix_cons.
  rewrite Ascii.eqb_refl.
  destruct (Ascii.eqb_spec "@" c) as [<-|_]; [contradiction|reflexivity].
Qed.

(** The second wants a group right after it. *)
Lemma plain_ref_wants_group y :
  match_at plain_ref (String "<" (String "!" y)) = None.
Proof. reflexivity. Qed.

(** The third wants [!subteam^]. *)
Lemma group_ref_wants_subteam n y :
  begins_with "!subteam^" n = false →
  match_at group_ref (String "<" (n +:+ String ">" y)) = None.
Proof.
  unfold begins_with. intros H.
  destruct (strip_prefix "!subteam^" n) eqn:E; [discriminate|].
  unfold match_at. simpl opening. rewrite strip_prefix_cons, Ascii.eqb_refl.
  now rewrite strip_prefix_None_break.
Qed.

Lemma plain_group_head g :
  group_of plain_ref g → ∃ g', g = String "U" g'.
Proof.
  intros [_ H]. destruct g as [|c [|d g]]; try discriminate. simpl in H.
  apply Ascii.eqb_eq in H. subst. eauto.
Qed.

Section ResolveText.
Variables user_map group_map : gmap string string.

Let r1 := fun g => "@" +:+ get_or_key user_map g.
Let r2 := fun g => "<" +:+ get_or_key user_map g +:+ ">".
Let r3 := fun g => "@" +:+ get_or_key group_map g.

Lemma resolve_text_unfold txt :
  resolve_text txt user_map group_map
    = re_sub group_ref r3 (re_sub plain_ref r2 (re_sub user_ref r1 txt)).
Proof. reflexivity. Qed.

(** A user reference. *)
Lemma resolve_text_user_ref pre g post :
  group_of user_ref g →
  (∀ n, user_map !! g = Some n → lacks "<" n = true) →
  resolve_text (pre +:+ token user_ref g +:+ post) user_map group_map
    = resolve_text pre user_map group_map
        +:+ "@" +:+ get_or_key user_map g
        +:+ resolve_text post user_map group_map.
Proof.
  intros Hg Hn. rewrite !resolve_text_unfold.
  rewrite (re_sub_token user_ref r1 user_ref_opens pre g post eq_refl Hg).
  assert (L : lacks "<" (String "@" (get_or_key user_map g)) = true).
  { unfold get_or_key. destruct (user_map !! g) as [n|] eqn:E; simpl.
    - apply (Hn n eq_refl).
    - apply (id_char_not_lt g), Hg. }
  unfold r1 at 2. change ("@" +:+ get_or_key user_map g)
    with (String "@" (get_or_key user_map g)).
  rewrite (re_sub_inert plain_ref r2 plain_ref_opens _ "@" _ _ eq_refl L).
  rewrite (re_sub_inert group_ref r3 group_ref_opens _ "@" _ _ eq_refl L).
  reflexivity.
Qed.

(** A plain identifier reference. *)
Lemma resolve_text_plain_ref pre g post :
  group_of plain_ref g →
  (∀ n, user_map !! g = Some n →
        lacks "<" n = true ∧ begins_with "!subteam^" n = false) →
  resolve_text (pre +:+ token plain_ref g +:+ post) user_map group_map
    = resolve_text pre user_map group_map
        +:+ "<" +:+ get_or_key user_map g +:+ ">"
        +:+ resolve_text post user_map group_map.
Proof.
  intros Hg Hn. rewrite !resolve_text_unfold.
  destruct (plain_group_head g Hg) as [g' Eg].
  assert (Lg : lacks "<" g = true) by apply id_char_not_lt, Hg.
  assert (Hname : lacks "<" (get_or_key user_map g) = true
                  ∧ begins_with "!subteam^" (get_or_key user_map g) = false).
  { unfold get_or_key. destruct (user_map !! g) as [n|] eqn:E; simpl.
    - apply (Hn n eq_refl).
    - split; [exact Lg|]. subst g. reflexivity. }
  destruct Hname as [Ln Bn].
  (* the first pass leaves the token alone *)
  change (token plain_ref g) with (String "<" (g +:+ ">")).
  rewrite (re_sub_bracket user_ref r1 user_ref_opens pre (g +:+ ">") _ eq_refl).
  2:{ unfold lacks in *. rewrite string_forallb_append, Lg. reflexivity. }
  2:{ subst g. apply user_ref_wants_at. discriminate. }
  (* the second replaces it *)
  change (String "<" (g +:+ ">")) with (token plain_ref g).
  rewrite (re_sub_token plain_ref r2 plain_ref_opens _ g _ eq_refl Hg).
  (* the third leaves the bracketed name alone *)
  unfold r2 at 2.
  change ("<" +:+ get_or_key user_map g +:+ ">")
    with (String "<" (get_or_key user_map g +:+ ">")).
  rewrite (re_sub_bracket group_ref r3 group_ref_opens _
             (get_or_key user_map g +:+ ">") _ eq_refl).
  2:{ unfold lacks in *. rewrite string_forallb_append, Ln. reflexivity. }
  2:{ rewrite append_assoc. now apply group_ref_wants_subteam. }
  simpl. now rewrite !append_assoc.
Qed.

(** A group reference. *)
Lemma resolve_text_group_ref pre g post :
  group_of group_ref g →
  resolve_text (pre +:+ token group_ref g +:+ post) user_map group_map
    = resolve_text pre user_map group_map
        +:+ "@" +:+ get_or_key group_map g
        +:+ resolve_text post user_map group_map.
Proof.
  intros Hg. rewrite !resolve_text_unfold.
  assert (Lg : lacks "<" g = true) by apply id_char_not_lt, Hg.
  assert (L : lacks "<" ("!subteam^" +:+ g +:+ ">") = true).
  { unfold lacks in *. rewrite !string_forallb_append, Lg. reflexivity. }
  change (token group_ref g) with (String "<" ("!subteam^" +:+ g +:+ ">")).
  rewrite (re_sub_bracket user_ref r1 user_ref_opens pre _ _ eq_refl L)
    by (apply user_ref_wants_at; discriminate).
  rewrite (re_sub_bracket plain_ref r2 plain_ref_opens _ _ _ eq_refl L)
    by apply plain_ref_wants_group.
  change (String "<" ("!subteam^" +:+ g +:+ ">")) with (token group_ref g).
  rewrite (re_sub_token group_ref r3 group_ref_opens _ g _ eq_refl Hg).
  reflexivity.
Qed.
End ResolveText.

(** ** [sorted] *)

Section SortedFacts.
Context {A : Type} (key : A -> Q).

Local Abbreviation key_le := (key_le key).

Lemma insert_sorted_perm x l : Permutation (insert_sorted key x l) (x :: l).
Proof.
  induction l as [|y l IH]; simpl; [reflexivity|].
  destruct (Qle_bool (key x) (key y)); [reflexivity|].
  rewrite IH. apply perm_swap.
Qed.

Lemma sorted_perm l : Permutation (sorted key l) l.
Proof.
  induction l as [|x l IH]; simpl; [reflexivity|].
  rewrite insert_sorted_perm. now constructor.
Qed.

Lemma sorted_In x l : In x (sorted key l) ↔ In x l.
Proof.
  split; apply Permutation_in; [|symmetry]; apply sorted_perm.
Qed.

Lemma insert_sorted_HdRel a x l :
  key_le a x → HdRel key_le a l → HdRel key_le a (insert_sorted key x l).
Proof.
  intros Hax Hal. destruct l as [|y l]; simpl; [now constructor|].
  destruct (Qle_bool (key x) (key y)); constructor; [exact Hax|].
  now inversion Hal.
Qed.

Lemma insert_sorted_Sorted x l :
  Sorted key_le l → Sorted key_le (insert_sorted key x l).
Proof.
  induction 1 as [|y l Hl IH Hy]; simpl; [repeat constructor|].
  destruct (Qle_bool (key x) (key y)) eqn:E.
  - apply Qle_bool_iff in E. repeat constructor; assumption.
  - constructor; [exact IH|]. apply insert_sorted_HdRel; [|exact Hy].
    unfold key_le. destruct (Qlt_le_dec (key y) (key x)) as [L|L].
    + now apply Qlt_le_weak.
    + apply Qle_bool_iff in L. congruence.
Qed.

Lemma sorted_Sorted l : Sorted key_le (sorted key l).
Proof.
  induction l as [|x l IH]; simpl; [constructor|].
  now apply insert_sorted_Sorted.
Qed.

Lemma Sorted_firstn (R : A -> A -> Prop) l : ∀ n,
  Sorted R l → Sorted R (firstn n l).
Proof.
  induction l as [|a l IH]; intros n H.
  - now destruct n.
  - destruct n as [|n]; simpl; [constructor|]. inversion H; subst.
    constructor; [now apply IH|].
    destruct l as [|b l]; destruct n; simpl; constructor.
    now inversion H3.
Qed.
End SortedFacts.

(** ** [fmt_ts] *)

Lemma civil_from_days_range z :
  let '(y, m, d) := Datetime.civil_from_days z in
  (1 <= m <= 12)%Z ∧ (1 <= d <= 31)%Z.
Proof.
  unfold Datetime.civil_from_days.
  set (z' := (z + 719468)%Z).
  set (era := (z' / 146097)%Z).
  set (doe := (z' - era * 146097)%Z).
  assert (Hdoe : (0 <= doe <= 146096)%Z).
  { subst doe era. pose proof (Z.mod_pos_bound z' 146097 eq_refl) as H.
    rewrite Z.mod_eq in H by lia. lia. }
  clearbody doe. clear era z'.
  set (yoe := ((doe - doe / 1460 + doe / 36524 - doe / 146096) / 365)%Z).
  set (doy := (doe - (365 * yoe + yoe / 4 - yoe / 100))%Z).
  assert (Hdoy : (0 <= doy <= 365)%Z).
  { subst doy yoe. Z.div_mod_to_equations; lia. }
  clearbody doy.
  set (mp := ((5 * doy + 2) / 153)%Z).
  assert (Hmp : (0 <= mp <= 11)%Z) by (subst mp; Z.div_mod_to_equations; lia).
  assert (Hd : (1 <= doy - (153 * mp + 2) / 5 + 1 <= 31)%Z)
    by (subst mp; Z.div_mod_to_equations; lia).
  clearbody mp. split; [|exact Hd].
  destruct (Z.ltb_spec mp 10); lia.
Qed.

(** The fields of a date that [of_seconds] returns are in range. *)
Lemma of_seconds_range s dt :
  Datetime.of_seconds s = Some dt →
  (1 <= Datetime.year dt <= 9999 ∧ 1 <= Datetime.month dt <= 12
   ∧ 1 <= Datetime.day dt <= 31 ∧ 0 <= Datetime.hour dt <= 23
   ∧ 0 <= Datetime.minute dt <= 59 ∧ 0 <= Datetime.second dt <= 59)%Z.
Proof.
  unfold Datetime.of_seconds.
  pose proof (civil_from_days_range (s / 86400)) as R.
  destruct (Datetime.civil_from_days (s / 86400)) as [[y m] d].
  destruct ((1 <=? y)%Z && (y <=? 9999)%Z) eqn:Y; [|discriminate].
  intros [= <-]. simpl. apply andb_prop in Y as [Y1 Y2].
  apply Z.leb_le in Y1, Y2.
  pose proof (Z.mod_pos_bound s 86400 eq_refl).
  repeat split; try lia; Z.div_mod_to_equations; lia.
Qed.

Lemma digit_is_digit d : (0 <= d <= 9)%Z → is_digit (Datetime.digit d) = true.
Proof.
  intros H.
  assert (E : (d = 0 ∨ d = 1 ∨ d = 2 ∨ d = 3 ∨ d = 4 ∨ d = 5 ∨ d = 6
               ∨ d = 7 ∨ d = 8 ∨ d = 9)%Z) by lia.
  repeat (destruct E as [->|E]; [reflexivity|]). now subst.
Qed.

Lemma strftime_shape dt :
  (1 <= Datetime.year dt <= 9999 ∧ 1 <= Datetime.month dt <= 12
   ∧ 1 <= Datetime.day dt <= 31 ∧ 0 <= Datetime.hour dt <= 23
   ∧ 0 <= Datetime.minute dt <= 59 ∧ 0 <= Datetime.second dt <= 59)%Z →
  has_shape stamp_shape (Datetime.strftime dt) = true.
Proof.
  intros (Hy & Hm & Hd & Hh & Hn & Hs).
  unfold Datetime.strftime, Datetime.pad4, Datetime.pad2, stamp_shape.
  cbn [String.append has_shape is_letter].
  repeat match goal with
  | |- context [is_digit (Datetime.digit ?x)] =>
      rewrite (digit_is_digit x) by (Z.div_mod_to_equations; lia)
  end.
  reflexivity.
Qed.

Section WriteFacts.
Variable float : string -> Q.
Variable local_seconds : Q -> Z.

Lemma fmt_ts_shape ts stamp :
  fmt_ts float local_seconds ts = Some stamp →
  has_shape stamp_shape stamp = true.
Proof.
  unfold fmt_ts.
  destruct (Datetime.of_seconds (local_seconds (float ts))) as [dt|] eqn:E;
    [|discriminate].
  intros [= <-]. apply strftime_shape. now apply (of_seconds_range _ _ E).
Qed.

(** A timestamp is formatted exactly when its local year is one of
    1..9999. *)
Lemma fmt_ts_defined ts :
  let '(y, _, _) :=
    Datetime.civil_from_days (local_seconds (float ts) / 86400) in
  (1 <= y <= 9999)%Z ↔ ∃ stamp, fmt_ts float local_seconds ts = Some stamp.
Proof.
  unfold fmt_ts, Datetime.of_seconds.
  destruct (Datetime.civil_from_days _) as [[y m] d].
  destruct ((1 <=? y)%Z && (y <=? 9999)%Z) eqn:Y; simpl.
  - apply andb_prop in Y as [Y1 Y2]. apply Z.leb_le in Y1, Y2.
    split; [eauto|lia].
  - split; [|now intros [? [=]]].
    intros H. apply andb_false_iff in Y as [Y|Y]; apply Z.leb_gt in Y; lia.
Qed.
End WriteFacts.

(** ** [write_channel] *)

Lemma commit_In w : ∀ attempts, In w (commit attempts) → In (Some w) attempts.
Proof.
  induction attempts as [|[w'|] attempts IH]; simpl; [tauto| |tauto].
  intros [->|H]; [now left|right; now apply IH].
Qed.

(** The writes of [a], then those of [b] unless one of [a] raised. *)
Lemma commit_app a b :
  commit (a ++ b)
    = commit a ++ (if forallb written_ok a
                   then commit b else []).
Proof.
  induction a as [|[w|] a IH]; simpl; [reflexivity| |reflexivity].
  now rewrite IH.
Qed.

Section ChannelFacts.
Variable float : string -> Q.
Variable local_seconds : Q -> Z.
Variables (threads : dict (list Message.t)) (resolve : bool)
          (user_map group_map : gmap string string).

Local Abbreviation top :=
  (top_line float local_seconds resolve user_map group_map).
Local Abbreviation reply :=
  (reply_line float local_seconds resolve user_map group_map).
Local Abbreviation attempts :=
  (write_messages float local_seconds threads resolve user_map group_map).
Local Abbreviation ts_le := (key_le (by_ts float)).

Lemma top_line_Some m w :
  top m = Some w →
  source w = m ∧ is_reply w = false
  ∧ rendered float local_seconds resolve user_map group_map w.
Proof.
  unfold top_line, rendered.
  destruct (fmt_ts float local_seconds (Message.ts m)) as [stamp|] eqn:E;
    [|discriminate].
  intros [= <-]. simpl. repeat split. exists stamp.
  repeat split; [exact E|now apply (fmt_ts_shape float local_seconds _ _ E)].
Qed.

Lemma reply_line_Some r w :
  reply r = Some w →
  source w = r ∧ is_reply w = true
  ∧ rendered float local_seconds resolve user_map group_map w.
Proof.
  unfold reply_line, rendered.
  destruct (fmt_ts float local_seconds (Message.ts r)) as [stamp|] eqn:E;
    [|discriminate].
  intros [= <-]. simpl. repeat split. exists stamp.
  repeat split; [exact E|now apply (fmt_ts_shape float local_seconds _ _ E)].
Qed.

(** Every attempted write is the line of a message or of a reply of a
    thread parent. *)
Lemma write_messages_In a : ∀ ms,
  In a (attempts ms) →
  (∃ m, In m ms ∧ a = top m)
  ∨ (∃ m rs r, In m ms ∧ is_thread_parent m = true
               ∧ dict_get threads (Message.ts m) = Some rs
               ∧ In r rs ∧ a = reply r).
Proof.
  induction ms as [|m ms IH]; simpl; [tauto|].
  rewrite in_app_iff. intros [<-|[H|H]].
  - left. exists m. auto.
  - right. destruct (is_thread_parent m) eqn:P; [|destruct H].
    apply in_map_iff in H as (r & <- & Hr). apply sorted_In in Hr.
    destruct (dict_get threads (Message.ts m)) as [rs|] eqn:D;
      [|destruct Hr].
    exists m, rs, r. auto.
  - destruct (IH H) as [(m' & Hm & E)|(m' & rs & r & Hm & R)].
    + left. exists m'. auto.
    + right. exists m', rs, r. tauto.
Qed.

Lemma write_channel_lines messages w :
  In w (write_channel float local_seconds threads resolve user_map
          group_map messages) →
  rendered float local_seconds resolve user_map group_map w
  ∧ placed threads messages w.
Proof.
  unfold write_channel, placed. intros H. apply commit_In in H.
  apply write_messages_In in H
    as [(m & Hm & E)|(m & rs & r & Hm & P & D & Hr & E)].
  - symmetry in E. apply top_line_Some in E as (<- & -> & R).
    split; [exact R|]. now apply sorted_In in Hm.
  - symmetry in E. apply reply_line_Some in E as (<- & -> & R).
    split; [exact R|]. apply sorted_In in Hm. exists m, rs. auto.
Qed.

(** *** Order of the lines *)

Lemma commit_replies_top_level rs : top_level (commit (map reply rs)) = [].
Proof.
  induction rs as [|r rs IH]; simpl; [reflexivity|].
  destruct (reply r) as [w|] eqn:E; [|reflexivity].
  apply reply_line_Some in E as (_ & E & _).
  unfold top_level in *. simpl. now rewrite E.
Qed.

Lemma top_level_app a b : top_level (a ++ b) = top_level a ++ top_level b.
Proof. unfold top_level. now rewrite List.filter_app, map_app. Qed.

Lemma top_level_cons w l :
  top_level (w :: l)
    = if is_reply w then top_level l else source w :: top_level l.
Proof. unfold top_level. simpl. now destruct (is_reply w). Qed.

(** The top-level lines of the file render a prefix of the messages passed
    to the loop, in their order. *)
Lemma top_level_prefix : ∀ ms,
  ∃ n, top_level (commit (attempts ms)) = firstn n ms.
Proof.
  induction ms as [|m ms [n IH]]; [now exists 0|]. simpl.
  destruct (top m) as [w|] eqn:E; [|now exists 0].
  apply top_line_Some in E as (<- & E & _).
  rewrite commit_app, top_level_cons, E, top_level_app.
  destruct (is_thread_parent (source w)); simpl.
  - rewrite commit_replies_top_level. simpl.
    destruct (forallb _ _); [|now exists 1].
    exists (S n). simpl. now rewrite IH.
  - exists (S n). simpl. now rewrite IH.
Qed.

(** When no write raises, every message gets its top-level line. *)
Lemma top_level_all : ∀ ms,
  forallb written_ok (attempts ms) = true →
  top_level (commit (attempts ms)) = ms.
Proof.
  induction ms as [|m ms IH]; simpl; [reflexivity|].
  destruct (top m) as [w|] eqn:E; [|discriminate]. simpl.
  rewrite forallb_app. intros H. apply andb_prop in H as [Ha Hms].
  apply top_line_Some in E as (<- & E & _).
  rewrite commit_app, top_level_cons, E, top_level_app, Ha, (IH Hms).
  destruct (is_thread_parent (source w)); simpl; [|reflexivity].
  now rewrite commit_replies_top_level.
Qed.

Lemma replies_in_order_top w l :
  is_reply w = false → Sorted (replies_in_order float) l →
  Sorted (replies_in_order float) (w :: l).
Proof.
  intros H S. constructor; [exact S|].
  destruct l; constructor. unfold replies_in_order. congruence.
Qed.

(** A block of reply lines written from sorted replies is in order, and
    stays so when lines that start with a top-level line follow. *)
Lemma commit_replies_in_order rs l :
  Sorted ts_le rs →
  Sorted (replies_in_order float) l →
  match l with w :: _ => is_reply w = false | [] => True end →
  Sorted (replies_in_order float)
    (commit (map reply rs)
       ++ (if forallb written_ok (map reply rs)
           then l else [])).
Proof.
  intros Hrs Hl Hhd. induction Hrs as [|r rs Hrs IH Hr]; simpl; [exact Hl|].
  destruct (reply r) as [w|] eqn:E; [|constructor]. simpl.
  constructor; [exact IH|].
  apply reply_line_Some in E as (Ew & _ & _).
  destruct rs as [|r2 rs]; simpl.
  - destruct l as [|w2 l]; constructor.
    unfold replies_in_order. congruence.
  - destruct (reply r2) as [w2|] eqn:E2; simpl; constructor.
    apply reply_line_Some in E2 as (Ew2 & _ & _).
    inversion Hr; subst. intros _ _. assumption.
Qed.

Lemma attempts_head ms :
  match commit (attempts ms) with
  | w :: _ => is_reply w = false
  | [] => True
  end.
Proof.
  destruct ms as [|m ms]; simpl; [exact I|].
  destruct (top m) as [w|] eqn:E; [|exact I].
  now apply top_line_Some in E as (_ & E & _).
Qed.

Lemma attempts_replies_in_order : ∀ ms,
  Sorted (replies_in_order float) (commit (attempts ms)).
Proof.
  induction ms as [|m ms IH]; simpl; [constructor|].
  destruct (top m) as [w|] eqn:E; [|constructor].
  apply top_line_Some in E as (_ & E & _).
  apply replies_in_order_top; [exact E|].
  rewrite commit_app. destruct (is_thread_parent m).
  - apply commit_replies_in_order;
      [apply sorted_Sorted|exact IH|apply attempts_head].
  - exact IH.
Qed.
End ChannelFacts.

(** ** The user map *)

Lemma add_members_lookup us : ∀ (m : gmap string string) k,
  add_members m us !! k
    = match user_map_of us k with
      | Some n => Some n
      | None => m !! k
      end.
Proof.
  induction us as [|u us IH] using rev_ind; intros m k; [reflexivity|].
  rewrite add_members_app. unfold user_map_of. rewrite rev_app_distr. simpl.
  destruct (String.eqb_spec (Member.id u) k) as [<-|N]; simpl.
  - apply lookup_insert_eq.
  - rewrite lookup_insert_ne by exact N. apply IH.
Qed.

(** * The claims *)

(** ** Pagination *)




(** ** Errors *)

(** C2: [fetch_all_channels] does not do what the claim says.  A
    rate-limit error of [conversations.list] leaves the function: nothing
    is slept, nothing is asked again, the page that would have come next
    stays unread.  On the same replies [fetch_thread] sleeps for the three
    seconds the server asks for and sends its request again with the same
    cursor. *)
Theorem fetch_all_channels_throttled :
  let page := Page [Example.general] None in
  fetch_all_channels default_types [Example.slow; Answer page]
    = Run (Raised (Example.throttled (Some 3%Z)))
        [Call (conversations_list default_types 200 None)] [Answer page]
  ∧ let parent := Example.message "1" (Some "1") None "question" in
    let answer := Example.message "2" (Some "1") None "answer" in
    fetch_thread "C1" "1" 1 1 0 false
      [Example.slow; Answer (Page [parent; answer] None)]
    = Run (Returned [answer])
        [Call (conversations_replies "C1" "1" None 100);
         Print "⏳ Rate-limited on thread 1/1, sleeping 3s …";
         Sleep 3;
         Call (conversations_replies "C1" "1" None 100)] [].
Proof. split; reflexivity. Qed.

(** C4: [fetch_all_channels] does not do what the claim says.  An error
    other than rate-limiting leaves the function too: no line is
    printed and the channels of the pages read so far are not returned.
    On the same kind of replies [fetch_user_map] prints the failure and
    returns the members it has. *)
Theorem fetch_all_channels_broken :
  let page := Page [Example.general] (Some "c1") in
  fetch_all_channels default_types [Answer page; Failure Example.broken]
    = Run (Raised Example.broken)
        [Call (conversations_list default_types 200 None);
         Call (conversations_list default_types 200 (Some "c1"))] []
  ∧ ∃ m,
      fetch_user_map
        [Answer (Page [Example.alice] (Some "c1")); Failure Example.broken]
      = Run (Returned m)
          [Call (users_list None); Call (users_list (Some "c1"));
           Print "⚠️ users.list failed: internal_error"] []
      ∧ m !! "U1" = Some "Alice".
Proof. split; [reflexivity|]. eexists. split; reflexivity. Qed.

(** ** Threads *)




(** ** The subtype filter *)






(** ** Mentions *)

(** C7, as the spec has it, fails: a display name that holds a reference is
    resolved in its turn, and the name mapped to the identifier does not
    reach the output. *)
Lemma resolve_text_rescans_names :
  let user_map : gmap string string :=
    <["U1" := "<U2>"]> (<["U2" := "Bob"]> ∅) in
  user_map !! "U1" = Some "<U2>"
  ∧ resolve_text "<@U1>" user_map ∅ = "@<Bob>"
  ∧ resolve_text "<@U1>" user_map ∅ ≠ "@" +:+ "<U2>".
Proof.
  intros user_map.
  assert (E : resolve_text "<@U1>" user_map ∅ = "@<Bob>")
    by (vm_compute; reflexivity).
  split; [vm_compute; reflexivity|]. split; [exact E|].
  rewrite E. discriminate.
Qed.

(** C7 (amended): wherever a reference stands in the text, the text before
    it and the text after it are resolved each on its own and never an
    error is raised; a user reference [<@ID>] becomes [@] and the name
    mapped to ID when that name has no [<]; a plain reference [<ID>]
    becomes the mapped name in angle brackets when that name has no [<]
    and does not begin with [!subteam^]; a group reference
    [<!subteam^ID>] becomes [@] and the mapped name; an identifier that
    is not mapped stands for itself. *)
Theorem resolve_text_references user_map group_map pre g post :
  (group_of user_ref g →
   (∀ n, user_map !! g = Some n → lacks "<" n = true) →
   resolve_text (pre +:+ "<@" +:+ g +:+ ">" +:+ post) user_map group_map
     = resolve_text pre user_map group_map
         +:+ "@" +:+ default g (user_map !! g)
         +:+ resolve_text post user_map group_map)
  ∧ (group_of plain_ref g →
     (∀ n, user_map !! g = Some n →
           lacks "<" n = true ∧ begins_with "!subteam^" n = false) →
     resolve_text (pre +:+ "<" +:+ g +:+ ">" +:+ post) user_map group_map
       = resolve_text pre user_map group_map
           +:+ "<" +:+ default g (user_map !! g) +:+ ">"
           +:+ resolve_text post user_map group_map)
  ∧ (group_of group_ref g →
     resolve_text (pre +:+ "<!subteam^" +:+ g +:+ ">" +:+ post)
       user_map group_map
       = resolve_text pre user_map group_map
           +:+ "@" +:+ default g (group_map !! g)
           +:+ resolve_text post user_map group_map).
Proof.
  repeat apply conj.
  - intros Hg Hn.
    pose proof (resolve_text_user_ref user_map group_map pre g post Hg Hn)
      as H.
    unfold token in H. simpl opening in H. rewrite !append_assoc in H.
    exact H.
  - intros Hg Hn.
    pose proof (resolve_text_plain_ref user_map group_map pre g post Hg Hn)
      as H.
    unfold token in H. simpl opening in H. rewrite !append_assoc in H.
    exact H.
  - intros Hg.
    pose proof (resolve_text_group_ref user_map group_map pre g post Hg) as H.
    unfold token in H. simpl opening in H. rewrite !append_assoc in H.
    exact H.
Qed.

Lemma resolve_text_references_witness :
  let user_map : gmap string string := <["U1" := "Alice"]> ∅ in
  let group_map : gmap string string := <["S1" := "devs"]> ∅ in
  (group_of user_ref "U1" ∧ group_of plain_ref "U1" ∧ group_of group_ref "S1")
  ∧ (∀ n, user_map !! "U1" = Some n →
          lacks "<" n = true ∧ begins_with "!subteam^" n = false)
  ∧ resolve_text ("hi <U9> " +:+ "<@" +:+ "U1" +:+ ">" +:+ ", see <@W2>")
    user_map group_map
    = "hi <U9> @Alice, see @W2"
  ∧ resolve_text ("" +:+ "<" +:+ "U1" +:+ ">" +:+ " wrote") user_map group_map
    = "<Alice> wrote"
  ∧ resolve_text ("ask " +:+ "<!subteam^" +:+ "S1" +:+ ">" +:+ "")
      user_map group_map
    = "ask @devs".
Proof.
  intros user_map group_map.
  assert (N : ∀ n, user_map !! "U1" = Some n →
                   lacks "<" n = true ∧ begins_with "!subteam^" n = false).
  { intros n H. vm_compute in H. injection H as <-. split; reflexivity. }
  split; [repeat split|]. split; [exact N|].
  repeat apply conj.
  - rewrite (proj1 (resolve_text_references user_map group_map
                      "hi <U9> " "U1" ", see <@W2>"));
      [vm_compute; reflexivity|split; reflexivity|].
    intros n H. apply (N n H).
  - rewrite (proj1 (proj2 (resolve_text_references user_map group_map
                             "" "U1" " wrote")));
      [vm_compute; reflexivity|split; reflexivity|exact N].
  - rewrite (proj2 (proj2 (resolve_text_references user_map group_map
                             "ask " "S1" "")));
      [vm_compute; reflexivity|split; reflexivity].
Defined.

(** C8: text in which no substring matches one of the three patterns is
    returned as it is, whatever the maps; so resolving it again changes
    nothing. *)
Theorem resolve_text_mention_free txt user_map group_map :
  mention_free txt →
  resolve_text txt user_map group_map = txt
  ∧ resolve_text (resolve_text txt user_map group_map) user_map group_map
    = resolve_text txt user_map group_map.
Proof.
  intros (Hu & Hp & Hg).
  assert (E : resolve_text txt user_map group_map = txt).
  { unfold resolve_text.
    rewrite (re_sub_no_match user_ref _ txt Hu).
    rewrite (re_sub_no_match plain_ref _ txt Hp).
    apply (re_sub_no_match group_ref _ txt Hg). }
  split; [exact E|]. now rewrite !E.
Qed.

Lemma has_mention_false txt : has_mention txt = false → mention_free txt.
Proof.
  unfold has_mention, mention_free. intros H.
  apply orb_false_iff in H as [H Hg]. apply orb_false_iff in H as [Hu Hp].
  repeat split; intros M; apply finds_complete in M; congruence.
Qed.

Lemma resolve_text_mention_free_witness :
  let txt := "see <https://example.org|here>, <@u1> & <U>" in
  let user_map : gmap string string := <["U1" := "Alice"]> ∅ in
  mention_free txt
  ∧ resolve_text txt user_map ∅ = txt
  ∧ resolve_text (resolve_text txt user_map ∅) user_map ∅
    = resolve_text txt user_map ∅.
Proof.
  intros txt user_map.
  assert (F : mention_free txt) by (apply has_mention_false; reflexivity).
  split; [exact F|]. exact (resolve_text_mention_free txt user_map ∅ F).
Defined.

(** ** The transcript *)

(** C3, as the spec has it, fails: the replies of a thread are written
    right after their parent, before later top-level messages. *)
Lemma reply_written_before_later_message :
  let parent := Example.message "1" (Some "1") None "question" in
  let later := Example.message "3" None None "remark" in
  let answer := Example.message "5" (Some "1") None "answer" in
  let file :=
    write_channel Example.float Example.local_seconds [("1", [answer])]
      true ∅ ∅ [later; parent] in
  map chunk file
    = ["[1970-01-01 00:00:01] <unknown> question" +:+ nl +:+ nl;
       "    ↳ [1970-01-01 00:00:05] <unknown> answer" +:+ nl +:+ nl;
       "[1970-01-01 00:00:03] <unknown> remark" +:+ nl +:+ nl]
  ∧ map source file = [parent; answer; later]
  ∧ ¬ Sorted (key_le (by_ts Example.float)) (map source file).
Proof.
  intros parent later answer file.
  assert (E : map source file = [parent; answer; later])
    by (vm_compute; reflexivity).
  repeat apply conj; [vm_compute; reflexivity|exact E|].
  rewrite E. intros H. inversion H as [|? ? H1 _]; subst.
  inversion H1 as [|? ? _ H2]; subst. inversion H2 as [|? ? L]; subst.
  vm_compute in L. now apply L.
Qed.

(** C3 (amended): in every file [write_channel] writes, the top-level lines
    follow one another by non-decreasing timestamp, and so do reply lines
    that follow one another. *)
Theorem write_channel_order float local_seconds threads resolve
    user_map group_map messages :
  let file :=
    write_channel float local_seconds threads resolve user_map group_map
      messages in
  Sorted (key_le (by_ts float)) (top_level file)
  ∧ Sorted (replies_in_order float) file.
Proof.
  intros file. subst file. unfold write_channel. split.
  - destruct (top_level_prefix float local_seconds threads resolve user_map
                group_map (sorted (by_ts float) messages)) as [n ->].
    apply Sorted_firstn, sorted_Sorted.
  - apply attempts_replies_in_order.
Qed.


(** * Further properties *)

(** ** The loops with a handler never let an error out *)

Lemma fetch_user_map_loop_caught script : ∀ m cursor backoff e,
  result (fetch_user_map_loop script m cursor backoff) ≠ Raised e.
Proof.
  induction script as [|[r|e'] script IH]; intros m cursor backoff e; simpl.
  - discriminate.
  - destruct (truthy (next_cursor r)); [apply IH|discriminate].
  - destruct (ratelimited e'); [apply IH|discriminate].
Qed.

Lemma fetch_thread_loop_caught ch ts idx total pause verbose script :
  ∀ replies cursor e,
  result (fetch_thread_loop ch ts idx total pause verbose script replies cursor)
    ≠ Raised e.
Proof.
  induction script as [|[r|e'] script IH]; intros replies cursor e; simpl.
  - discriminate.
  - destruct (truthy (next_cursor r)); [apply IH|discriminate].
  - destruct (ratelimited e'); [apply IH|discriminate].
Qed.

Lemma history_loop_caught float ch start_ts end_ts script :
  ∀ tops threads cursor e,
  result (history_loop float ch start_ts end_ts script tops threads cursor)
    ≠ Raised e.
Proof.
  induction script as [|[r|e'] script IH]; intros tops threads cursor e; simpl.
  - discriminate.
  - destruct (truthy (next_cursor r)); [apply IH|discriminate].
  - destruct (ratelimited e'); [apply IH|discriminate].
Qed.

Lemma threads_loop_caught ch pause verbose keys : ∀ idx total script threads e,
  result (threads_loop ch pause verbose keys idx total script threads)
    ≠ Raised e.
Proof.
  induction keys as [|k keys IH]; intros idx total script threads e; simpl.
  - discriminate.
  - destruct (result (fetch_thread ch k idx total pause verbose script))
      as [replies|e'|] eqn:E; simpl.
    + apply IH.
    + exfalso. revert E. apply fetch_thread_loop_caught.
    + discriminate.
Qed.

(** X1: whatever the API replies, no [SlackApiError] leaves
    [fetch_user_map], [fetch_thread] or [fetch_channel_structured]. *)
Theorem handlers_catch_every_error :
  (∀ script e, result (fetch_user_map script) ≠ Raised e)
  ∧ (∀ ch ts idx total pause verbose script e,
       result (fetch_thread ch ts idx total pause verbose script) ≠ Raised e)
  ∧ (∀ float ch start_ts end_ts pause verbose script e,
       result (fetch_channel_structured float ch start_ts end_ts pause verbose
                 script) ≠ Raised e).
Proof.
  repeat apply conj.
  - intros script e. apply fetch_user_map_loop_caught.
  - intros ch ts idx total pause verbose script e.
    apply fetch_thread_loop_caught.
  - intros float ch start_ts end_ts pause verbose script e.
    unfold fetch_channel_structured.
    destruct (result (history_loop float ch start_ts end_ts script [] [] None))
      as [[tops threads]|e'|] eqn:H; simpl.
    + destruct (result (threads_loop ch pause verbose (dict_keys threads) 1
                          (length threads) _ threads))
        as [threads'|e'|] eqn:T; simpl; try discriminate.
      exfalso. revert T. apply threads_loop_caught.
    + exfalso. revert H. apply history_loop_caught.
    + discriminate.
Qed.

(** ** [fetch_all_channels] and errors *)

Lemma fetch_all_channels_loop_error types pre e rest : ∀ channels cursor,
  Forall (fun a => has_more a = true) pre →
  fetch_all_channels_loop types (pre ++ Failure e :: rest) channels cursor
    = Run (Raised e)
        (map (fun c => Call (conversations_list types 200 c))
           (cursors cursor (pre ++ [Failure e])))
        rest.
Proof.
  intros channels cursor Hpre. revert channels cursor.
  induction Hpre as [|a pre Ha _ IH]; intros channels cursor.
  - reflexivity.
  - loop_head a Ha; [|discriminate]. rewrite IH. reflexivity.
Qed.

(** X2: [fetch_all_channels] passes on the first error it meets, whatever
    its code: the channels of the pages read before are lost, the log holds
    nothing but the requests, one per reply, and the replies after the error
    stay unread. *)
Theorem fetch_all_channels_error types pre e rest :
  Forall (fun a => has_more a = true) pre →
  fetch_all_channels types (pre ++ Failure e :: rest)
    = Run (Raised e)
        (map (fun c => Call (conversations_list types 200 c))
           (cursors None (pre ++ [Failure e])))
        rest.
Proof. apply fetch_all_channels_loop_error. Qed.

Lemma fetch_all_channels_error_witness :
  let page := Answer (Page [Example.general] (Some "c1")) in
  let later := Answer (Page [Example.random] None) in
  Forall (fun a => has_more a = true) [page]
  ∧ fetch_all_channels default_types ([page] ++ Example.slow :: [later])
    = Run (Raised (Example.throttled (Some 3%Z)))
        [Call (conversations_list default_types 200 None);
         Call (conversations_list default_types 200 (Some "c1"))]
        [later].
Proof.
  intros page later.
  assert (H : Forall (fun a => has_more a = true) [page])
    by (repeat constructor).
  split; [exact H|].
  exact (fetch_all_channels_error default_types [page]
           (Example.throttled (Some 3%Z)) [later] H).
Defined.

(** ** Rate limits and the result *)

Lemma unthrottled_cons_answer {A} (r : page A) s :
  unthrottled (Answer r :: s) = Answer r :: unthrottled s.
Proof. reflexivity. Qed.

Lemma fetch_thread_loop_unread_unthrottled ch ts idx total pause verbose
    script : ∀ replies cursor,
  unread (fetch_thread_loop ch ts idx total pause verbose
            (unthrottled script) replies cursor)
    = unthrottled (unread (fetch_thread_loop ch ts idx total pause verbose
                             script replies cursor)).
Proof.
  induction script as [|[r|e] script IH]; intros replies cursor; simpl.
  - reflexivity.
  - destruct (truthy (next_cursor r)); [apply IH|reflexivity].
  - destruct (ratelimited e) eqn:E; simpl; [apply IH|].
    now rewrite E.
Qed.

Lemma history_loop_unread_unthrottled float ch start_ts end_ts script :
  ∀ tops threads cursor,
  unread (history_loop float ch start_ts end_ts (unthrottled script)
            tops threads cursor)
    = unthrottled (unread (history_loop float ch start_ts end_ts script
                             tops threads cursor)).
Proof.
  induction script as [|[r|e] script IH]; intros tops threads cursor; simpl.
  - reflexivity.
  - destruct (truthy (next_cursor r)); [apply IH|reflexivity].
  - destruct (ratelimited e) eqn:E; simpl; [apply IH|].
    now rewrite E.
Qed.

Lemma threads_loop_unthrottled ch pause verbose keys :
  ∀ idx total script threads,
  result (threads_loop ch pause verbose keys idx total script threads)
    = result (threads_loop ch pause verbose keys idx total
                (unthrottled script) threads).
Proof.
  induction keys as [|k keys IH]; intros idx total script threads; simpl.
  - reflexivity.
  - unfold fetch_thread.
    rewrite <- (fetch_thread_loop_unthrottled ch k idx total pause verbose
                  script [] None).
    rewrite (fetch_thread_loop_unread_unthrottled ch k idx total pause verbose
               script [] None).
    destruct (result (fetch_thread_loop ch k idx total pause verbose script
                        [] None)); simpl; [apply IH|reflexivity..].
Qed.


(** ** Requests *)

Lemma fetch_all_channels_loop_calls types pre t rest : ∀ channels cursor,
  Forall (fun a => has_more a = true) pre → last_page t = true →
  calls (events (fetch_all_channels_loop types (pre ++ t :: rest)
                   channels cursor))
    = map (conversations_list types 200) (cursors cursor (pre ++ [t])).
Proof.
  intros channels cursor Hpre Ht. revert channels cursor.
  induction Hpre as [|a pre Ha _ IH]; intros channels cursor.
  - loop_head t Ht; [|discriminate].
    destruct (truthy (next_cursor r)); [discriminate|reflexivity].
  - loop_head a Ha; [|discriminate]. f_equal. apply IH.
Qed.



(** ** Backing off in [fetch_user_map] *)

Lemma fetch_user_map_loop_sleeps script : ∀ m cursor backoff q,
  (10 <= backoff <= 120)%Z →
  In (Sleep q) (events (fetch_user_map_loop script m cursor backoff)) →
  (∃ e z, In (Failure e) script ∧ retry_after e = Some z ∧ q = inject_Z z)
  ∨ (∃ b, (10 <= b <= 120)%Z ∧ q = inject_Z b).
Proof.
  induction script as [|[r|e] script IH]; intros m cursor backoff q Hb; simpl.
  - intros [[=]|[]].
  - destruct (truthy (next_cursor r)); simpl.
    + intros [[=]|H]. apply IH in H; [|lia].
      destruct H as [(e & z & He & R)|H]; [left|right; exact H].
      exists e, z. split; [now right|exact R].
    + intros [[=]|[]].
  - destruct (ratelimited e) eqn:E; simpl.
    + intros [[=]|[[=]|[[= <-]|H]]].
      * destruct (retry_after e) as [z|] eqn:R; simpl.
        -- left. exists e, z. split; [now left|]. now split.
        -- right. exists backoff. now split.
      * apply IH in H; [|lia].
        destruct H as [(e' & z & He & R)|H]; [left|right; exact H].
        exists e', z. split; [now right|exact R].
    + intros [[=]|[[=]|[]]].
Qed.



Lemma backoff_doubles b p :
  (10 <= b)%Z → (1 <= p)%Z →
  Z.min (Z.min (b * 2) 120 * p) 120 = Z.min (b * (2 * p)) 120.
Proof. intros Hb Hp. destruct (Z.le_gt_cases (b * 2) 120); nia. Qed.

Lemma fetch_user_map_loop_backoff e rest m cursor n : ∀ backoff,
  ratelimited e = true → retry_after e = None → (10 <= backoff <= 120)%Z →
  sleeps (events (fetch_user_map_loop (repeat (Failure e) n ++ rest)
                    m cursor backoff))
    = map (fun i => inject_Z (Z.min (backoff * 2 ^ Z.of_nat i) 120)) (seq 0 n)
      ++ sleeps (events (fetch_user_map_loop rest m cursor
                           (Z.min (backoff * 2 ^ Z.of_nat n) 120))).
Proof.
  induction n as [|n IH]; intros backoff He Hr Hb.
  - simpl. rewrite Z.mul_1_r, Z.min_l by lia. reflexivity.
  - simpl repeat. simpl app. rewrite fetch_user_map_loop_throttled by exact He.
    rewrite events_after, Hr. simpl default. simpl sleeps.
    rewrite IH by (exact He || exact Hr || lia).
    rewrite <- seq_shift, map_map. simpl map.
    rewrite Z.mul_1_r, (Z.min_l backoff) by lia. f_equal.
    assert (P : ∀ i, Z.min (Z.min (backoff * 2) 120 * 2 ^ Z.of_nat i) 120
                     = Z.min (backoff * 2 ^ Z.of_nat (S i)) 120).
    { intros i. rewrite Nat2Z.inj_succ, Z.pow_succ_r by lia.
      apply backoff_doubles; [lia|].
      pose proof (Z.pow_pos_nonneg 2 (Z.of_nat i)). lia. }
    rewrite P. f_equal. apply map_ext. intros i. now rewrite P.
Qed.



(** ** Other errors *)



(** ** The requests of [fetch_channel_structured] *)

Lemma threads_loop_calls ch pause verbose ks : ∀ ss idx total rest threads,
  length ss = length ks →
  Forall (fun s => complete s = true) ss →
  calls (events (threads_loop ch pause verbose ks idx total
                   (concat ss ++ rest) threads))
    = concat (map (fun ks => map (fun c => conversations_replies ch
                                              (fst ks) c 100)
                               (cursors None (snd ks)))
                (combine ks ss))
  ∧ unread (threads_loop ch pause verbose ks idx total
              (concat ss ++ rest) threads) = rest.
Proof.
  induction ks as [|k ks IH]; intros ss idx total rest threads Hlen Hss.
  - destruct ss; [|discriminate]. now split.
  - destruct ss as [|s ss]; [discriminate|].
    injection Hlen as Hlen. inversion Hss as [|? ? Hs Hss']; subst.
    simpl concat. rewrite <- app_assoc.
    destruct (fetch_thread_complete ch pause verbose k idx total s
                (concat ss ++ rest) Hs) as [Hres Hun].
    simpl threads_loop. rewrite Hres, Hun.
    rewrite events_after, unread_after, calls_app.
    destruct (IH ss (S idx) total rest (dict_set k (thread_replies s) threads)
                Hlen Hss') as [IHc IHu].
    rewrite IHc, IHu. split; [|reflexivity]. simpl. f_equal.
    apply complete_inv in Hs as (pre & t & -> & Hpre & Ht).
    rewrite <- app_assoc. simpl app.
    apply (fetch_thread_loop_calls ch k idx total pause verbose pre t
             (concat ss ++ rest) [] None Hpre Ht).
Qed.



(** ** Where the entries of the user map come from *)

Lemma or_else_nonempty x y : y ≠ "" → or_else x y ≠ "".
Proof.
  intros Hy. destruct x as [s|]; simpl; [|exact Hy].
  destruct (String.eqb_spec s ""); [exact Hy|assumption].
Qed.

Lemma add_members_from us : ∀ (m : gmap string string) k v,
  add_members m us !! k = Some v →
  m !! k = Some v
  ∨ ∃ u, In u us ∧ Member.id u = k ∧ v = display_name u.
Proof.
  induction us as [|u us IH] using rev_ind; intros m k v; [now left|].
  rewrite add_members_app. simpl.
  destruct (String.eqb_spec (Member.id u) k) as [<-|N].
  - rewrite lookup_insert_eq. intros [= <-]. right. exists u.
    split; [apply in_or_app; right; now left|now split].
  - rewrite lookup_insert_ne by exact N. intros H.
    apply IH in H as [H|(u' & Hu & E)]; [now left|right].
    exists u'. split; [apply in_or_app; now left|exact E].
Qed.

Lemma fetch_user_map_loop_from script : ∀ m0 cursor backoff m k v,
  result (fetch_user_map_loop script m0 cursor backoff) = Returned m →
  m !! k = Some v →
  m0 !! k = Some v
  ∨ ∃ u, In u (fetched script) ∧ Member.id u = k ∧ v = display_name u.
Proof.
  induction script as [|[r|e] script IH]; intros m0 cursor backoff m k v; simpl.
  - discriminate.
  - rewrite fetched_answer.
    destruct (truthy (next_cursor r)); simpl.
    + intros H L. destruct (IH _ _ _ _ _ _ H L) as [L'|(u & Hu & E)].
      * apply add_members_from in L' as [L'|(u & Hu & E)]; [now left|right].
        exists u. split; [apply in_or_app; now left|exact E].
      * right. exists u. split; [apply in_or_app; now right|exact E].
    + intros [= <-] L.
      apply add_members_from in L as [L|(u & Hu & E)]; [now left|right].
      exists u. split; [apply in_or_app; now left|exact E].
  - rewrite fetched_failure. destruct (ratelimited e); simpl.
    + apply IH.
    + intros [= <-] L. now left.
Qed.

(** X9: every entry of the map [fetch_user_map] returns comes from a member
    of a page: its key is the member's id and its value the member's
    [real_name], or its [name] when that is missing or empty, or its id
    when both are; so no value is empty unless the id is. *)
Theorem fetch_user_map_entries script m k v :
  result (fetch_user_map script) = Returned m →
  m !! k = Some v →
  ∃ u, In u (fetched script) ∧ Member.id u = k
       ∧ v = or_else (Member.real_name u) (or_else (Member.name u) k)
       ∧ (k ≠ "" → v ≠ "").
Proof.
  intros H L.
  destruct (fetch_user_map_loop_from script ∅ None 10 m k v H L)
    as [E|(u & Hu & <- & ->)].
  - rewrite lookup_empty in E. discriminate.
  - exists u. repeat split; [exact Hu|].
    intros N. unfold display_name. now apply or_else_nonempty, or_else_nonempty.
Qed.

Lemma fetch_user_map_entries_witness :
  let script := [Answer (Page [Example.alice; Example.bob] None)] in
  ∃ m, result (fetch_user_map script) = Returned m
       ∧ m !! "U2" = Some "bob"
       ∧ ∃ u, In u (fetched script) ∧ Member.id u = "U2"
              ∧ "bob" = or_else (Member.real_name u)
                          (or_else (Member.name u) "U2")
              ∧ ("U2" ≠ "" → "bob" ≠ "").
Proof.
  intros script. eexists. split; [reflexivity|].
  assert (L : add_members ∅ [Example.alice; Example.bob] !! "U2" = Some "bob")
    by (vm_compute; reflexivity).
  split; [exact L|].
  exact (fetch_user_map_entries script _ "U2" "bob" eq_refl L).
Defined.

(** ** Pacing *)

(** What a loop sleeps after a reply that keeps it going: [pause] after a
    page, the wait and then [extra] after a rate-limit error. *)
Lemma fetch_thread_loop_sleeps ch ts idx total pause verbose pre t rest :
  ∀ replies cursor,
  Forall (fun a => goes_on a = true) pre → goes_on t = false →
  sleeps (events (fetch_thread_loop ch ts idx total pause verbose
                    (pre ++ t :: rest) replies cursor))
    = map (fun a => match a with
                    | Answer _ => pause
                    | Failure e => inject_Z (default 30%Z (retry_after e))
                    end) pre.
Proof.
  intros replies cursor Hpre Ht. revert replies cursor.
  assert (S0 : ∀ c, sleeps (thread_call ch ts verbose c) = []).
  { intros c. unfold thread_call. now destruct verbose. }
  assert (SA : ∀ e1 e2, sleeps (e1 ++ e2) = sleeps e1 ++ sleeps e2).
  { induction e1 as [|[q|s|l] e1 IH]; intros e2; simpl;
      [reflexivity|apply IH|now rewrite IH|apply IH]. }
  induction Hpre as [|a pre Ha _ IH]; intros replies cursor.
  - loop_head t Ht; rewrite ?SA, S0; reflexivity.
  - loop_head a Ha; rewrite !SA, S0, IH; reflexivity.
Qed.

Lemma history_loop_sleeps float ch start_ts end_ts pre t rest :
  ∀ tops threads cursor,
  Forall (fun a => goes_on a = true) pre → goes_on t = false →
  sleeps (events (history_loop float ch start_ts end_ts (pre ++ t :: rest)
                    tops threads cursor))
    = concat (map (fun a => match a with
                            | Answer _ => [1%Q]
                            | Failure e =>
                                [inject_Z (default 30%Z (retry_after e)); 1%Q]
                            end) pre).
Proof.
  intros tops threads cursor Hpre Ht. revert tops threads cursor.
  induction Hpre as [|a pre Ha _ IH]; intros tops threads cursor.
  - loop_head t Ht; reflexivity.
  - loop_head a Ha; rewrite IH; reflexivity.
Qed.



(** ** What the pacing and the verbosity do not touch *)

Lemma fetch_thread_loop_quiet ch ts script :
  ∀ idx total pause verbose idx' total' pause' verbose' replies cursor,
  let r := fetch_thread_loop ch ts idx total pause verbose script
             replies cursor in
  let r' := fetch_thread_loop ch ts idx' total' pause' verbose' script
              replies cursor in
  result r = result r' ∧ unread r = unread r'
  ∧ calls (events r) = calls (events r').
Proof.
  intros idx total pause verbose idx' total' pause' verbose'.
  assert (C : ∀ c, calls (thread_call ch ts verbose c)
                   = calls (thread_call ch ts verbose' c)).
  { intros c. unfold thread_call. now destruct verbose, verbose'. }
  induction script as [|[r|e] script IH]; intros replies cursor; simpl.
  - repeat split. apply C.
  - destruct (truthy (next_cursor r)); simpl.
    + destruct (IH (replies ++ tail (items r)) (next_cursor r))
        as (R & U & E).
      repeat split; [exact R|exact U|].
      rewrite !calls_app. simpl. rewrite !app_nil_r. now rewrite C, E.
    + repeat split. apply C.
  - destruct (ratelimited e); simpl.
    + destruct (IH replies cursor) as (R & U & E).
      repeat split; [exact R|exact U|].
      rewrite !calls_app. simpl. rewrite !app_nil_r. now rewrite C, E.
    + repeat split. rewrite !calls_app. simpl. now rewrite C.
Qed.

Lemma threads_loop_quiet ch keys :
  ∀ pause verbose pause' verbose' idx total script threads,
  let r := threads_loop ch pause verbose keys idx total script threads in
  let r' := threads_loop ch pause' verbose' keys idx total script threads in
  result r = result r' ∧ unread r = unread r'
  ∧ calls (events r) = calls (events r').
Proof.
  intros pause verbose pause' verbose'.
  induction keys as [|k keys IH]; intros idx total script threads; simpl.
  - now repeat split.
  - destruct (fetch_thread_loop_quiet ch k script idx total pause verbose
                idx total pause' verbose' [] None) as (R & U & E).
    unfold fetch_thread. rewrite <- R, <- U.
    destruct (result (fetch_thread_loop ch k idx total pause verbose script
                        [] None)) as [replies|e|]; simpl.
    + destruct (IH (S idx) total
                  (unread (fetch_thread_loop ch k idx total pause verbose
                             script [] None))
                  (dict_set k replies threads)) as (R' & U' & E').
      repeat split; [exact R'|exact U'|].
      now rewrite !calls_app, E, E'.
    + now repeat split.
    + now repeat split.
Qed.


(** ** More on [write_channel] *)

Section ChannelMore.
Variable float : string -> Q.
Variable local_seconds : Q -> Z.
Variables (threads : dict (list Message.t))
          (user_map group_map : gmap string string).

Local Abbreviation top r :=
  (top_line float local_seconds r user_map group_map).
Local Abbreviation reply r :=
  (reply_line float local_seconds r user_map group_map).
Local Abbreviation attempts r :=
  (write_messages float local_seconds threads r user_map group_map).
Local Abbreviation stamped m :=
  (fmt_ts float local_seconds (Message.ts m) <> None).

Lemma commit_alike l1 l2 :
  Forall2 alike l1 l2 → map line_tag (commit l1) = map line_tag (commit l2).
Proof.
  induction 1 as [|a b l1 l2 H _ IH]; [reflexivity|].
  destruct a as [w1|], b as [w2|]; simpl in *; try contradiction;
    [|reflexivity].
  now rewrite H, IH.
Qed.

Lemma top_line_alike r1 r2 m : alike (top r1 m) (top r2 m).
Proof.
  unfold top_line. now destruct (fmt_ts float local_seconds (Message.ts m)).
Qed.

Lemma reply_line_alike r1 r2 m : alike (reply r1 m) (reply r2 m).
Proof.
  unfold reply_line.
  now destruct (fmt_ts float local_seconds (Message.ts m)).
Qed.

Lemma write_messages_alike r1 r2 ms :
  Forall2 alike (attempts r1 ms) (attempts r2 ms).
Proof.
  induction ms as [|m ms IH]; simpl; [constructor|].
  constructor; [apply top_line_alike|].
  apply Forall2_app; [|exact IH].
  destruct (is_thread_parent m); [|constructor].
  induction (sorted _ _) as [|r rs IHr]; simpl; constructor;
    [apply reply_line_alike|exact IHr].
Qed.

(** When every timestamp can be formatted no write raises. *)
Lemma write_messages_ok r ms :
  (∀ m, In m ms → stamped m) →
  (∀ m rs x, In m ms → is_thread_parent m = true →
     dict_get threads (Message.ts m) = Some rs → In x rs → stamped x) →
  forallb written_ok (attempts r ms) = true.
Proof.
  intros Hm Hr. induction ms as [|m ms IH]; simpl; [reflexivity|].
  rewrite forallb_app, IH.
  - assert (T : written_ok (top r m) = true).
    { unfold top_line.
      destruct (fmt_ts float local_seconds (Message.ts m)) eqn:E;
        [reflexivity|]. exfalso. apply (Hm m); [now left|exact E]. }
    rewrite T, andb_true_r. simpl.
    destruct (is_thread_parent m) eqn:P; [|reflexivity].
    apply forallb_forall. intros a Ha.
    apply in_map_iff in Ha as (x & <- & Hx). apply sorted_In in Hx.
    destruct (dict_get threads (Message.ts m)) as [rs|] eqn:D;
      [|destruct Hx].
    unfold reply_line.
    destruct (fmt_ts float local_seconds (Message.ts x)) eqn:E;
      [reflexivity|]. exfalso.
    apply (Hr m rs x); [now left|exact P|exact D|exact Hx|exact E].
  - intros m' H. apply Hm. now right.
  - intros m' rs x H. apply Hr. now right.
Qed.

Lemma commit_all l : forallb written_ok l = true → map Some (commit l) = l.
Proof.
  induction l as [|[w|] l IH]; simpl; [reflexivity| |discriminate].
  intros H. now rewrite IH.
Qed.

(** *** Nesting *)

Lemma nested_replies p rs l :
  is_thread_parent p = true →
  (∀ x, In x rs → In x (default [] (dict_get threads (Message.ts p)))) →
  nested threads (Some p) l →
  ∀ r, nested threads (Some p)
         (commit (map (reply r) rs)
            ++ (if forallb written_ok (map (reply r) rs) then l else [])).
Proof.
  intros P Hrs Hl r. induction rs as [|x rs IH]; simpl; [exact Hl|].
  destruct (reply r x) as [w|] eqn:E; simpl; [|exact I].
  apply reply_line_Some in E as (<- & -> & _).
  split; [split; [exact P|apply Hrs; now left]|].
  apply IH. intros y Hy. apply Hrs. now right.
Qed.

Lemma write_messages_nested r : ∀ ms cur,
  nested threads cur (commit (attempts r ms)).
Proof.
  induction ms as [|m ms IH]; intros cur; simpl; [exact I|].
  destruct (top r m) as [w|] eqn:E; simpl; [|exact I].
  apply top_line_Some in E as (<- & -> & _).
  rewrite commit_app.
  destruct (is_thread_parent (source w)) eqn:P.
  - apply nested_replies; [exact P| |apply IH].
    intros x Hx. now apply sorted_In in Hx.
  - simpl. apply IH.
Qed.
End ChannelMore.

Lemma sorted_filter_stable {A} (key : A -> Q) (p : A -> bool) :
  (∀ x y, p x = true → p y = true → (key x == key y)%Q) →
  ∀ l, List.filter p (sorted key l) = List.filter p l.
Proof.
  intros Hp.
  assert (I : ∀ x l, List.filter p (insert_sorted key x l)
                     = List.filter p (x :: l)).
  { intros x l. induction l as [|y l IH]; [reflexivity|]. simpl insert_sorted.
    destruct (Qle_bool (key x) (key y)) eqn:E; [reflexivity|].
    simpl. simpl in IH. rewrite IH.
    destruct (p x) eqn:Px, (p y) eqn:Py; try reflexivity.
    exfalso. specialize (Hp x y Px Py).
    assert (L : (key x <= key y)%Q) by (rewrite Hp; apply Qle_refl).
    apply Qle_bool_iff in L. congruence. }
  induction l as [|x l IH]; [reflexivity|]. simpl sorted. rewrite I. simpl.
  now rewrite IH.
Qed.

(** X10: the file written with names resolved and the file written without
    have the same lines in the same order: line by line the same message,
    as a reply line in both or in none.  When no text holds a mention the
    two files are the same. *)
Theorem resolved_and_raw_files float local_seconds threads user_map group_map
    messages :
  map line_tag (write_channel float local_seconds threads true
                  user_map group_map messages)
    = map line_tag (write_channel float local_seconds threads false
                      user_map group_map messages)
  ∧ ((∀ m, In m messages → mention_free (default "" (Message.text m))) →
     (∀ k rs r, dict_get threads k = Some rs → In r rs →
        mention_free (default "" (Message.text r))) →
     write_channel float local_seconds threads true user_map group_map messages
       = write_channel float local_seconds threads false user_map group_map
           messages).
Proof.
  split.
  - unfold write_channel. apply commit_alike, write_messages_alike.
  - intros Hm Hr. unfold write_channel. f_equal.
    assert (B : ∀ m, mention_free (default "" (Message.text m)) →
                body true user_map group_map m
                = body false user_map group_map m).
    { intros m F. unfold body.
      destruct F as (Fu & Fp & Fg). unfold resolve_text.
      rewrite (re_sub_no_match user_ref _ _ Fu).
      rewrite (re_sub_no_match plain_ref _ _ Fp).
      apply (re_sub_no_match group_ref _ _ Fg). }
    assert (Hs : ∀ m, In m (sorted (by_ts float) messages) →
                 mention_free (default "" (Message.text m))).
    { intros m H. apply Hm. now apply sorted_In in H. }
    clear Hm. induction (sorted (by_ts float) messages) as [|m ms IH];
      [reflexivity|].
    simpl. f_equal; [|f_equal].
    + unfold top_line. now rewrite B by (apply Hs; now left).
    + destruct (is_thread_parent m); [|reflexivity].
      apply map_ext_in. intros r Hx. apply sorted_In in Hx.
      destruct (dict_get threads (Message.ts m)) as [rs|] eqn:D;
        [|destruct Hx].
      unfold reply_line. now rewrite B by (apply (Hr _ rs r D Hx)).
    + apply IH. intros m' H. apply Hs. now right.
Qed.

Lemma resolved_and_raw_files_witness :
  let parent := Example.message "1" (Some "1") None "no mention here" in
  let answer := Example.message "2" (Some "1") None "nor <here>" in
  let threads := [("1", [answer])] in
  (∀ m, In m [parent] → mention_free (default "" (Message.text m)))
  ∧ (∀ k rs r, dict_get threads k = Some rs → In r rs →
       mention_free (default "" (Message.text r)))
  ∧ write_channel Example.float Example.local_seconds threads true ∅ ∅ [parent]
    = write_channel Example.float Example.local_seconds threads false ∅ ∅
        [parent].
Proof.
  intros parent answer threads.
  assert (Hm : ∀ m, In m [parent] →
                 mention_free (default "" (Message.text m))).
  { intros m [<-|[]]. apply has_mention_false. reflexivity. }
  assert (Hr : ∀ k rs r, dict_get threads k = Some rs → In r rs →
                 mention_free (default "" (Message.text r))).
  { intros k rs r D Hx. unfold threads in D. cbn [dict_get] in D.
    destruct (String.eqb "1" k); [|discriminate D]. injection D as <-.
    destruct Hx as [<-|[]]. apply has_mention_false. reflexivity. }
  repeat apply conj; [exact Hm|exact Hr|].
  exact (proj2 (resolved_and_raw_files Example.float Example.local_seconds
                  threads ∅ ∅ [parent]) Hm Hr).
Defined.

(** X11: when every timestamp to write can be formatted, each message gets
    one top-level line, in the order [sorted] gives, and messages with
    equal timestamps keep the order in which they were passed. *)
Theorem write_channel_complete float local_seconds threads resolve
    user_map group_map messages :
  (∀ m, In m messages →
     fmt_ts float local_seconds (Message.ts m) <> None) →
  (∀ m rs x, In m messages → is_thread_parent m = true →
     dict_get threads (Message.ts m) = Some rs → In x rs →
     fmt_ts float local_seconds (Message.ts x) <> None) →
  let file := write_channel float local_seconds threads resolve user_map
                group_map messages in
  top_level file = sorted (by_ts float) messages
  ∧ Permutation (top_level file) messages
  ∧ ∀ q, List.filter (fun m => Qeq_bool (by_ts float m) q) (top_level file)
         = List.filter (fun m => Qeq_bool (by_ts float m) q) messages.
Proof.
  intros Hm Hr file.
  assert (E : top_level file = sorted (by_ts float) messages).
  { apply top_level_all. apply write_messages_ok.
    - intros m H. apply Hm. now apply sorted_In in H.
    - intros m rs x H. apply Hr. now apply sorted_In in H. }
  rewrite E. repeat split; [apply sorted_perm|].
  intros q. apply sorted_filter_stable. intros x y Hx Hy.
  apply Qeq_bool_iff in Hx, Hy. now rewrite Hx, Hy.
Qed.

Lemma write_channel_complete_witness :
  let first := Example.message "2" None None "first" in
  let second := Example.message "2.0" None None "second" in
  let early := Example.message "1" None None "early" in
  let messages := [first; second; early] in
  (∀ m, In m messages →
     fmt_ts Example.float Example.local_seconds (Message.ts m) <> None)
  ∧ top_level (write_channel Example.float Example.local_seconds [] true ∅ ∅
                 messages)
    = [early; first; second].
Proof.
  intros first second early messages.
  assert (Hm : ∀ m, In m messages →
                 fmt_ts Example.float Example.local_seconds (Message.ts m)
                 <> None).
  { intros m [<-|[<-|[<-|[]]]]; vm_compute; discriminate. }
  split; [exact Hm|].
  refine (proj1 (write_channel_complete Example.float Example.local_seconds
                   [] true ∅ ∅ messages Hm _)).
  intros m rs x _ _ D. discriminate D.
Defined.

(** X12: in every file [write_channel] writes, a reply line stands below the
    top-level line of its thread parent, with nothing but reply lines of
    that thread in between; so the first line is never a reply line, and
    replies whose parent is not among the messages are not written. *)
Theorem write_channel_nested float local_seconds threads resolve
    user_map group_map messages :
  nested threads None
    (write_channel float local_seconds threads resolve user_map group_map
       messages).
Proof. unfold write_channel. apply write_messages_nested. Qed.

(** ** More on [resolve_text] *)

Lemma separator_inv c :
  separator c = true →
  breaks user_ref c = true ∧ breaks plain_ref c = true
  ∧ breaks group_ref c = true ∧ c ≠ "<"%char.
Proof.
  unfold separator. intros H.
  apply andb_prop in H as [H N]. apply andb_prop in H as [H G].
  apply andb_prop in H as [U P]. repeat split; try assumption.
  intros ->. discriminate.
Qed.

Lemma re_sub_separator p repl c a b :
  (∃ o, opening p = String "<" o) → breaks p c = true → c ≠ "<"%char →
  re_sub p repl (a +:+ String c b)
    = re_sub p repl a +:+ String c (re_sub p repl b).
Proof.
  intros O B N. rewrite (re_sub_break p repl O c b B).
  now rewrite re_sub_skip by (now apply match_at_not_lt).
Qed.

(** X13: a character that no pattern can hold after its first one and that
    is not [<] (a space, a line break, a comma: any but [<], [>], [@],
    [!], [^], the capitals, the digits and the letters of [subteam]) cuts
    the text in two parts that are resolved each on its own, whatever the
    maps hold. *)
Theorem resolve_text_separator c a b user_map group_map :
  separator c = true →
  resolve_text (a +:+ String c b) user_map group_map
    = resolve_text a user_map group_map
        +:+ String c (resolve_text b user_map group_map).
Proof.
  intros H. apply separator_inv in H as (U & P & G & N).
  unfold resolve_text.
  rewrite (re_sub_separator user_ref _ c a b user_ref_opens U N).
  rewrite (re_sub_separator plain_ref _ c _ _ plain_ref_opens P N).
  now rewrite (re_sub_separator group_ref _ c _ _ group_ref_opens G N).
Qed.

Lemma resolve_text_separator_witness :
  let user_map : gmap string string := <["U1" := "<U2"]> ∅ in
  separator " " = true
  ∧ resolve_text ("<@U1>" +:+ String " " "> <@U1>") user_map ∅
    = "@<U2" +:+ String " " "> @<U2".
Proof.
  intros user_map. split; [reflexivity|].
  rewrite (resolve_text_separator " " "<@U1>" "> <@U1>" user_map ∅ eq_refl).
  vm_compute. reflexivity.
Defined.

(** ** [fetch_group_map] *)

Lemma group_dict_lookup gs k : group_dict gs !! k = group_map_of gs k.
Proof.
  unfold group_dict, group_map_of.
  assert (G : ∀ (m : gmap string string),
            fold_left (fun m g => <[Usergroup.id g := group_name g]> m) gs m
              !! k
            = match option_map group_name
                      (find (fun g => String.eqb (Usergroup.id g) k) (rev gs))
              with
              | Some n => Some n
              | None => m !! k
              end).
  { induction gs as [|g gs IH] using rev_ind; intros m; [reflexivity|].
    rewrite fold_left_app, rev_app_distr. simpl.
    destruct (String.eqb_spec (Usergroup.id g) k) as [<-|N]; simpl.
    - apply lookup_insert_eq.
    - rewrite lookup_insert_ne by exact N. apply IH. }
  rewrite G. destruct (option_map _ _); [reflexivity|apply lookup_empty].
Qed.

(** X14: [fetch_group_map] reads one reply and never lets an error out.  A
    page gives each group id the [name] of the last group of the page that
    bears it, or its [handle] when the name is missing or empty, or the id
    itself.  Any error, a rate limit as well, gives the empty map and is
    not tried again; every group reference is then written as [@] and its
    identifier. *)
Theorem fetch_group_map_once :
  (∀ r rest,
     ∃ m, fetch_group_map (Answer r :: rest) = (Returned m, rest)
          ∧ ∀ k, m !! k = group_map_of (items r) k)
  ∧ (∀ e rest, fetch_group_map (Failure e :: rest) = (Returned ∅, rest))
  ∧ (∀ script e, fst (fetch_group_map script) ≠ Raised e)
  ∧ (∀ e rest user_map pre g post,
       group_of group_ref g →
       ∃ m, fst (fetch_group_map (Failure e :: rest)) = Returned m
            ∧ resolve_text (pre +:+ "<!subteam^" +:+ g +:+ ">" +:+ post)
                user_map m
              = resolve_text pre user_map m +:+ "@" +:+ g
                  +:+ resolve_text post user_map m).
Proof.
  repeat apply conj.
  - intros r rest. eexists. split; [reflexivity|]. apply group_dict_lookup.
  - reflexivity.
  - intros [|[r|e'] script] e; discriminate.
  - intros e rest user_map pre g post Hg. exists ∅. split; [reflexivity|].
    pose proof (resolve_text_group_ref user_map ∅ pre g post Hg) as H.
    unfold token in H. simpl opening in H. rewrite !append_assoc in H.
    exact H.
Qed.

Lemma fetch_group_map_once_witness :
  group_of group_ref "S1"
  ∧ ∃ m, fst (fetch_group_map [Example.slow;
                                Answer (Page [Usergroup.Make "S1" (Some "devs")
                                                None] None)])
         = Returned m
         ∧ resolve_text ("ask " +:+ "<!subteam^" +:+ "S1" +:+ ">" +:+ "!") ∅ m
           = resolve_text "ask " ∅ m +:+ "@" +:+ "S1" +:+ resolve_text "!" ∅ m.
Proof.
  assert (G : group_of group_ref "S1") by (split; reflexivity).
  split; [exact G|].
  exact (proj2 (proj2 (proj2 fetch_group_map_once))
           (Example.throttled (Some 3%Z)) _ ∅ "ask " "S1" "!" G).
Defined.

(** ** Decimal text *)

Lemma to_int_not_nil z :
  Z.to_int z ≠ Decimal.Pos Decimal.Nil ∧ Z.to_int z ≠ Decimal.Neg Decimal.Nil.
Proof.
  split; intros H; pose proof (DecimalZ.of_to z) as E; rewrite H in E;
    simpl in E; subst z; discriminate H.
Qed.

Lemma str_of_Z_inj z1 z2 : str_of_Z z1 = str_of_Z z2 → z1 = z2.
Proof.
  unfold str_of_Z. intros H.
  destruct (to_int_not_nil z1) as [P1 N1], (to_int_not_nil z2) as [P2 N2].
  pose proof (NilZero.isi _ P1 N1) as E1.
  pose proof (NilZero.isi _ P2 N2) as E2.
  rewrite H, E2 in E1. injection E1 as E1. symmetry.
  now apply DecimalZ.to_int_inj.
Qed.

Lemma str_of_nat_inj i j : str_of_nat i = str_of_nat j → i = j.
Proof. intros H. apply str_of_Z_inj in H. lia. Qed.

(** ** [resolve_selection] *)

Lemma split_at_whole sep s : lacks sep s = true → split_at sep s = [s].
Proof.
  unfold lacks. induction s as [|c s IH]; simpl; [reflexivity|].
  intros H. apply andb_prop in H as [Hc Hs]. apply negb_true_iff in Hc.
  now rewrite Hc, IH.
Qed.

Lemma split_at_length sep s :
  length (split_at sep s)
    = S (length (List.filter (Ascii.eqb sep) (list_ascii_of_string s))).
Proof.
  induction s as [|c s IH]; simpl; [reflexivity|].
  rewrite (Ascii.eqb_sym sep c). destruct (Ascii.eqb c sep); simpl.
  - now rewrite IH.
  - destruct (split_at sep s); simpl in *; [discriminate|exact IH].
Qed.

Section SelectionFacts.
Variables strip lower : string -> string.

Lemma idx_map_from_lookup channels : ∀ i m j,
  idx_map_from i channels m !! str_of_nat j
    = if (Nat.leb i j && Nat.ltb j (i + length channels))%bool
      then nth_error channels (j - i)
      else m !! str_of_nat j.
Proof.
  induction channels as [|ch channels IH]; intros i m j; simpl.
  - replace (j <? i + 0)%nat with (j <? i)%nat by (f_equal; lia).
    destruct (Nat.leb_spec i j), (Nat.ltb_spec j i); simpl;
      reflexivity || lia.
  - rewrite IH.
    destruct (Nat.leb_spec (S i) j), (Nat.ltb_spec j (S i + length channels)),
      (Nat.leb_spec i j), (Nat.ltb_spec j (i + S (length channels)));
      simpl; try lia.
    all: try (replace (j - i) with (S (j - S i)) by lia; reflexivity).
    all: try (assert (j = i) by lia; subst j; rewrite Nat.sub_diag; simpl;
              apply lookup_insert_eq).
    all: rewrite lookup_insert_ne; [reflexivity|];
      intros E; apply str_of_nat_inj in E; lia.
Qed.

Lemma idx_map_lookup channels j :
  idx_map channels !! str_of_nat j = nth_error channels j.
Proof.
  unfold idx_map. rewrite idx_map_from_lookup. simpl.
  rewrite Nat.sub_0_r. destruct (Nat.ltb_spec j (length channels));
    [reflexivity|].
  rewrite lookup_empty. symmetry. now apply nth_error_None.
Qed.

Lemma idx_map_from_Some channels : ∀ i m key ch,
  idx_map_from i channels m !! key = Some ch →
  m !! key = Some ch
  ∨ ∃ j, j < length channels ∧ key = str_of_nat (i + j)
         ∧ nth_error channels j = Some ch.
Proof.
  induction channels as [|c channels IH]; intros i m key ch; simpl;
    [now left|].
  intros H. apply IH in H as [H|(j & Hj & -> & N)].
  - destruct (String.eqb_spec (str_of_nat i) key) as [<-|N].
    + rewrite lookup_insert_eq in H. injection H as <-. right.
      exists 0. rewrite Nat.add_0_r. repeat split. lia.
    + rewrite lookup_insert_ne in H by exact N. now left.
  - right. exists (S j). repeat split; [lia|f_equal; lia|exact N].
Qed.

Lemma idx_map_Some channels key ch :
  idx_map channels !! key = Some ch →
  ∃ j, key = str_of_nat j ∧ nth_error channels j = Some ch.
Proof.
  intros H. apply idx_map_from_Some in H as [H|(j & _ & -> & N)].
  - rewrite lookup_empty in H. discriminate.
  - now exists j.
Qed.

Lemma label_map_lookup channels user_map key :
  label_map lower channels user_map !! key
    = labelled lower channels user_map key.
Proof.
  unfold label_map, labelled.
  assert (G : ∀ (m : gmap string Channel.t),
            fold_left
              (fun m ch => <[lower (label_for_channel ch user_map) := ch]> m)
              channels m !! key
            = match find (fun ch => String.eqb
                                      (lower (label_for_channel ch user_map))
                                      key) (rev channels)
              with
              | Some ch => Some ch
              | None => m !! key
              end).
  { induction channels as [|c channels IH] using rev_ind; intros m;
      [reflexivity|].
    rewrite fold_left_app, rev_app_distr. simpl.
    destruct (String.eqb_spec (lower (label_for_channel c user_map)) key)
      as [<-|N].
    - apply lookup_insert_eq.
    - rewrite lookup_insert_ne by exact N. apply IH. }
  rewrite G. destruct (find _ _); [reflexivity|apply lookup_empty].
Qed.

Lemma labelled_In channels user_map key ch :
  labelled lower channels user_map key = Some ch →
  In ch channels ∧ lower (label_for_channel ch user_map) = key.
Proof.
  unfold labelled. intros H. apply find_some in H as [H E].
  apply String.eqb_eq in E. split; [now apply in_rev|exact E].
Qed.

Lemma select_tokens_accounts channels user_map tokens :
  let out := select_tokens strip lower (idx_map channels)
               (label_map lower channels user_map) tokens in
  Forall (fun ch => In ch channels) (fst out)
  ∧ length (fst out) + length (snd out) = length tokens.
Proof.
  induction tokens as [|token tokens [IH1 IH2]]; simpl; [now split|].
  destruct (select_tokens _ _ _ _ tokens) as [sel printed]. simpl in *.
  destruct (idx_map channels !! lower (strip token)) as [ch|] eqn:I.
  - apply idx_map_Some in I as (j & _ & N). apply nth_error_In in N.
    simpl. split; [now constructor|lia].
  - destruct (label_map lower channels user_map !! lower (strip token))
      as [ch|] eqn:L; simpl.
    + rewrite label_map_lookup in L. apply labelled_In in L as [L _].
      split; [now constructor|lia].
    + split; [exact IH1|lia].
Qed.

(** X15: [resolve_selection] never selects a channel that is not in the
    list, and every token, one more than there are commas in the
    selection, gives one selected channel or one line [Not found]. *)
Theorem resolve_selection_accounts channels selection user_map :
  let out := resolve_selection strip lower channels selection user_map in
  Forall (fun ch => In ch channels) (fst out)
  ∧ length (fst out) + length (snd out)
    = S (length (List.filter (Ascii.eqb ",")
                   (list_ascii_of_string selection))).
Proof.
  unfold resolve_selection. rewrite <- split_at_length.
  apply select_tokens_accounts.
Qed.

(** X16: a token that reads, once stripped and in small letters, as the
    decimal index of a channel selects that channel, also when another
    channel bears this text as its label. *)
Theorem resolve_selection_index channels token user_map i ch :
  lacks "," token = true →
  lower (strip token) = str_of_nat i →
  nth_error channels i = Some ch →
  resolve_selection strip lower channels token user_map = ([ch], []).
Proof.
  intros Hc Hk Hn. unfold resolve_selection.
  rewrite split_at_whole by exact Hc. simpl.
  now rewrite Hk, idx_map_lookup, Hn.
Qed.

(** X17: a token that reads as no index of the list selects the channel
    whose label, in small letters, is the token stripped and in small
    letters, the last such channel when there are several; when there is
    none, nothing is selected and the token is reported as not found. *)
Theorem resolve_selection_label channels token user_map :
  lacks "," token = true →
  (∀ i, i < length channels → lower (strip token) ≠ str_of_nat i) →
  resolve_selection strip lower channels token user_map
    = match labelled lower channels user_map (lower (strip token)) with
      | Some ch => ([ch], [])
      | None => ([], [Print (not_found_line token)])
      end.
Proof.
  intros Hc Hi. unfold resolve_selection.
  rewrite split_at_whole by exact Hc. simpl.
  destruct (idx_map channels !! lower (strip token)) as [ch|] eqn:I.
  - exfalso. apply idx_map_Some in I as (j & E & N).
    apply (Hi j); [|exact E]. apply nth_error_Some. congruence.
  - rewrite label_map_lookup. now destruct (labelled _ _ _ _).
Qed.

(** X18: whatever the arguments and whatever is typed, [main] exports
    only channels of the list it fetched; [--all-channels] and
    [--all-dms] split that list: each channel is taken by one of them
    and not by the other. *)
Theorem selected_from_all args typed all_channels user_map :
  Forall (fun ch => In ch all_channels)
    (selected strip lower args typed all_channels user_map)
  ∧ Permutation
      (selected strip lower (MakeArgs None false true false) typed
         all_channels user_map
       ++ selected strip lower (MakeArgs None false false true) typed
            all_channels user_map)
      all_channels.
Proof.
  split.
  - unfold selected.
    assert (A : Forall (fun ch => In ch all_channels) all_channels)
      by now apply List.Forall_forall.
    assert (F : ∀ p, Forall (fun ch => In ch all_channels)
                       (List.filter p all_channels)).
    { intros p. apply List.Forall_forall. intros ch H.
      now apply filter_In in H as [H _]. }
    destruct (arg_all args); [exact A|].
    destruct (arg_all_channels args); [apply F|].
    destruct (arg_all_dms args); [apply F|].
    destruct (truthy (arg_channels args));
      [apply resolve_selection_accounts|].
    destruct (String.eqb (strip typed) ""); [exact A|].
    apply resolve_selection_accounts.
  - unfold selected. simpl.
    induction all_channels as [|c cs IH]; simpl; [constructor|].
    destruct (Channel.is_im c); simpl.
    + rewrite <- Permutation_middle. now constructor.
    + now constructor.
Qed.
End SelectionFacts.

Lemma resolve_selection_index_witness :
  let zero := Channel.Make "C0" (Some "1") false None in
  lacks "," " 1 " = true
  ∧ Plain.lower (Plain.strip " 1 ") = str_of_nat 1
  ∧ nth_error [zero; Example.general] 1 = Some Example.general
  ∧ resolve_selection Plain.strip Plain.lower [zero; Example.general] " 1 " ∅
    = ([Example.general], []).
Proof.
  intros zero. repeat apply conj; [reflexivity..|].
  exact (resolve_selection_index Plain.strip Plain.lower
           [zero; Example.general] " 1 " ∅ 1 Example.general
           eq_refl eq_refl eq_refl).
Defined.

Lemma resolve_selection_label_witness :
  let channels := [Example.general; Example.random;
                   Channel.Make "C3" (Some "General") false None] in
  lacks "," " GENERAL" = true
  ∧ (∀ i, i < length channels →
       Plain.lower (Plain.strip " GENERAL") ≠ str_of_nat i)
  ∧ resolve_selection Plain.strip Plain.lower channels " GENERAL" ∅
    = ([Channel.Make "C3" (Some "General") false None], []).
Proof.
  intros channels.
  assert (H : ∀ i, i < length channels →
                Plain.lower (Plain.strip " GENERAL") ≠ str_of_nat i).
  { intros i Hi. simpl in Hi.
    assert (E : i = 0 ∨ i = 1 ∨ i = 2) by lia.
    destruct E as [-> | [-> | ->]]; vm_compute; discriminate. }
  repeat apply conj; [reflexivity|exact H|].
  exact (resolve_selection_label Plain.strip Plain.lower channels
           " GENERAL" ∅ eq_refl H).
Defined.

(** ** [safe_name] *)

#[local] Arguments String.append !s1 s2 : simpl nomatch.

Lemma concat_cons x l : String.concat "" (x :: l) = x +:+ String.concat "" l.
Proof. destruct l; simpl; [now rewrite append_nil_r|reflexivity]. Qed.

Lemma chars_cons c s :
  chars (String c s)
    = match s with
      | String d _ =>
          if is_continuation d
          then match chars s with
               | h :: t => String c h :: t
               | [] => [String c EmptyString]
               end
          else String c EmptyString :: chars s
      | EmptyString => [String c EmptyString]
      end.
Proof. reflexivity. Qed.

(** A byte, continuation bytes and a text that starts afresh: the first
    character is the byte with its continuation bytes. *)
Lemma chars_piece r : ∀ c rest,
  string_forallb is_continuation r = true → fresh rest →
  chars (String c (r +:+ rest)) = String c r :: chars rest.
Proof.
  induction r as [|d r IH]; intros c rest Hr Hf.
  - simpl append. rewrite chars_cons. destruct rest as [|e rest];
      [reflexivity|]. simpl in Hf. now rewrite Hf.
  - simpl in Hr. apply andb_prop in Hr as [Hd Hr].
    simpl append. rewrite chars_cons, Hd, (IH d rest Hr Hf). reflexivity.
Qed.

Lemma concat_fresh l :
  Forall (fun g => piece g ∧ fresh g) l → fresh (String.concat "" l).
Proof.
  intros H. destruct H as [|g l [Hp Hf] _]; [exact I|].
  rewrite concat_cons. destruct g; [destruct Hp|exact Hf].
Qed.

Lemma chars_concat l : grouped l → chars (String.concat "" l) = l.
Proof.
  assert (G : ∀ l, Forall (fun g => piece g ∧ fresh g) l →
              chars (String.concat "" l) = l).
  { induction 1 as [|g l' [Hp Hf] Hl IH]; [reflexivity|].
    rewrite concat_cons. destruct g as [|c r]; [destruct Hp|].
    simpl append. rewrite chars_piece, IH; auto using concat_fresh. }
  destruct l as [|g l]; [reflexivity|]. intros [Hp Hl].
  rewrite concat_cons. destruct g as [|c r]; [destruct Hp|].
  simpl append. rewrite chars_piece, G; auto using concat_fresh.
Qed.

Lemma chars_shape s :
  match chars s with
  | [] => s = EmptyString
  | g :: l => piece g ∧ Forall (fun g => piece g ∧ fresh g) l
              ∧ ∃ c r, g = String c r ∧ ∃ s', s = String c s'
  end.
Proof.
  induction s as [|c s IH]; [reflexivity|].
  rewrite chars_cons. destruct s as [|d s].
  - simpl. repeat split; eauto.
  - destruct (is_continuation d) eqn:D.
    + destruct (chars (String d s)) as [|h t]; [discriminate IH|].
      destruct IH as (Hp & Hl & d' & r & -> & s' & [= <- <-]).
      repeat split; [|exact Hl|eauto]. simpl. simpl in Hp. now rewrite D.
    + destruct (chars (String d s)) as [|h t]; [discriminate IH|].
      destruct IH as (Hp & Hl & d' & r & -> & s' & [= <- <-]).
      split; [reflexivity|].
      split; [constructor; [now split|exact Hl]|eauto].
Qed.

Lemma chars_grouped s : grouped (chars s).
Proof.
  pose proof (chars_shape s) as H. destruct (chars s); [exact I|].
  now destruct H as (Hp & Hl & _).
Qed.

Lemma concat_chars s : String.concat "" (chars s) = s.
Proof.
  induction s as [|c s IH]; [reflexivity|].
  rewrite chars_cons. destruct s as [|d s]; [reflexivity|].
  remember (chars (String d s)) as l eqn:E.
  destruct (is_continuation d).
  - destruct l as [|h t].
    + pose proof (chars_shape (String d s)) as H. rewrite <- E in H.
      discriminate H.
    + rewrite concat_cons in *. simpl append. now rewrite IH.
  - rewrite concat_cons. simpl append. now rewrite IH.
Qed.

Section SafeNameFacts.
Variable wide_alnum : string -> bool.

Local Abbreviation safe := (safe_char wide_alnum).

Lemma safe_char_cases g : safe g = g ∨ safe g = "_".
Proof. unfold safe_char. destruct (_ || _); auto. Qed.

Lemma safe_char_twice g : safe (safe g) = safe g.
Proof.
  unfold safe_char at 2. destruct (_ || _) eqn:E.
  - unfold safe_char. now rewrite E.
  - unfold safe_char. now destruct (_ || _).
Qed.

Lemma safe_char_piece g : piece g → piece (safe g).
Proof. destruct (safe_char_cases g) as [-> | ->]; [auto|reflexivity]. Qed.

Lemma safe_char_fresh g : piece g → fresh g → fresh (safe g).
Proof. destruct (safe_char_cases g) as [-> | ->]; [auto|reflexivity]. Qed.

Lemma safe_chars_grouped l : grouped l → grouped (map safe l).
Proof.
  destruct l as [|g l]; [auto|]. intros [Hp Hl]. simpl.
  split; [now apply safe_char_piece|].
  induction Hl as [|h t [Hh Hf] _ IH]; simpl; constructor; [|exact IH].
  split; [now apply safe_char_piece|now apply safe_char_fresh].
Qed.

Lemma safe_char_bytes g : string_forallb safe_byte (safe g) = true.
Proof.
  unfold safe_char.
  destruct (isalnum wide_alnum g) eqn:A; simpl.
  - unfold isalnum in A. unfold safe_byte.
    destruct g as [|c [|d r]].
    + reflexivity.
    + simpl. destruct (is_ascii c); simpl; [now rewrite A|reflexivity].
    + apply andb_prop in A as [A _].
      remember (String c (String d r)) as g eqn:E. clear E.
      induction g as [|b g IH]; [reflexivity|]. simpl in *.
      apply andb_prop in A as [Ab Ag]. now rewrite Ab, IH.
  - destruct (String.eqb_spec g "-") as [->|_]; [reflexivity|].
    destruct (String.eqb_spec g "_") as [->|_]; [reflexivity|].
    destruct (String.eqb_spec g ".") as [->|_]; reflexivity.
Qed.

Lemma safe_name_bytes name :
  string_forallb safe_byte (safe_name wide_alnum name) = true.
Proof.
  unfold safe_name. induction (chars name) as [|g l IH]; [reflexivity|].
  simpl map. rewrite concat_cons, string_forallb_append, IH.
  now rewrite safe_char_bytes.
Qed.

Lemma safe_bytes_no_slash s :
  string_forallb safe_byte s = true → lacks "/" s = true.
Proof.
  unfold lacks. induction s as [|c s IH]; simpl; [reflexivity|].
  intros H. apply andb_prop in H as [Hc Hs]. rewrite IH by exact Hs.
  destruct (Ascii.eqb_spec c "/") as [->|_]; [discriminate Hc|reflexivity].
Qed.


Lemma chars_safe_name name :
  chars (safe_name wide_alnum name) = map safe (chars name).
Proof.
  unfold safe_name. apply chars_concat, safe_chars_grouped, chars_grouped.
Qed.

(** X20: [safe_name] keeps the number of characters, changes nothing in
    a name it has made, and leaves a name as it is when all its
    characters are letters, digits or one of [-], [_] and [.]. *)
Theorem safe_name_idempotent name :
  length (chars (safe_name wide_alnum name)) = length (chars name)
  ∧ safe_name wide_alnum (safe_name wide_alnum name)
    = safe_name wide_alnum name
  ∧ (Forall (fun g => safe g = g) (chars name) →
     safe_name wide_alnum name = name).
Proof.
  repeat split.
  - now rewrite chars_safe_name, length_map.
  - unfold safe_name at 1. rewrite chars_safe_name, map_map.
    unfold safe_name. f_equal. apply map_ext. intros g.
    apply safe_char_twice.
  - intros H. unfold safe_name.
    rewrite <- (concat_chars name) at 2. f_equal.
    induction H as [|g l Hg _ IH]; [reflexivity|]. simpl.
    now rewrite Hg, IH.
Qed.
End SafeNameFacts.

Lemma safe_name_idempotent_witness :
  let wide := fun ch => String.eqb ch "é" in
  Forall (fun g => safe_char wide g = g) (chars "café_1.txt")
  ∧ safe_name wide "café_1.txt" = "café_1.txt"
  ∧ safe_name wide "a b/c→d" = "a_b_c_d".
Proof.
  intros wide.
  assert (H : Forall (fun g => safe_char wide g = g) (chars "café_1.txt"))
    by (vm_compute; repeat constructor).
  split; [exact H|]. split; [|vm_compute; reflexivity].
  exact (proj2 (proj2 (safe_name_idempotent wide "café_1.txt")) H).
Defined.
